(** * khaanpaan: the record-to-triple mapper of [generate_graph.py]

    A shallow embedding of [create_uri_ref] and [add_meal_to_graph]
    (src/generate_graph.py; src/graph_generate.py carries the same two
    functions verbatim) together with the pieces of the Python runtime,
    [urllib.parse.quote] and rdflib they call, followed by the properties
    the specification states about them.

    Conventions of the embedding:
    - a Python [str] is the list of its code points ([pystr]); a decoded
      JSON payload can hold lone surrogates (from an escape such as
      [\ud800]), which [str.encode("utf-8")] inside [quote], and the
      console, refuse with [UnicodeEncodeError];
    - a value of a meal record is a [str] or [None] ([pyval]), as in the
      payloads of TheMealDB; the record itself is a finite map;
    - rdflib's [Graph] is a finite set of triples; [g.add] is insertion;
    - exceptions are values of [exn], threaded by a state-and-error monad. *)

From Stdlib Require Import NArith Ascii String Decimal DecimalNat Lia.
From stdpp Require Import base tactics option list gmap sets.

Local Open Scope N_scope.

(** ** Python strings *)

Definition pystr := list N.

(** A string literal of the source, as the list of its code points. *)
Definition str (s : string) : pystr :=
  (λ a, N_of_ascii a) <$> list_ascii_of_string s.

(** Truth value of a string in a condition: non-empty. *)
Definition truth (s : pystr) : bool :=
  match s with [] => false | _ :: _ => true end.

(** [str.isspace] on one code point, the set CPython uses for
    [str.strip()] without argument. *)
Definition is_space (c : N) : bool :=
  ((0x09 <=? c) && (c <=? 0x0D)) || ((0x1C <=? c) && (c <=? 0x20))
  || (c =? 0x85) || (c =? 0xA0) || (c =? 0x1680)
  || ((0x2000 <=? c) && (c <=? 0x200A))
  || (c =? 0x2028) || (c =? 0x2029) || (c =? 0x202F)
  || (c =? 0x205F) || (c =? 0x3000).

Fixpoint lstrip (s : pystr) : pystr :=
  match s with
  | [] => []
  | c :: s' => if is_space c then lstrip s' else s
  end.

Fixpoint rstrip (s : pystr) : pystr :=
  match s with
  | [] => []
  | c :: s' =>
      match rstrip s' with
      | [] => if is_space c then [] else [c]
      | r => c :: r
      end
  end.

(** [s.strip()] *)
Definition strip (s : pystr) : pystr := rstrip (lstrip s).

(** [s.replace(old, new)] for one-character [old] and [new]. *)
Definition replace (old new : N) (s : pystr) : pystr :=
  (λ c, if c =? old then new else c) <$> s.

Definition SPACE : N := 0x20.
Definition UNDERSCORE : N := 0x5F.
Definition PERCENT : N := 0x25.

(** [str(i)] for a non-negative integer. *)
Fixpoint digits (d : Decimal.uint) : pystr :=
  match d with
  | Nil => []
  | D0 d => 0x30 :: digits d
  | D1 d => 0x31 :: digits d
  | D2 d => 0x32 :: digits d
  | D3 d => 0x33 :: digits d
  | D4 d => 0x34 :: digits d
  | D5 d => 0x35 :: digits d
  | D6 d => 0x36 :: digits d
  | D7 d => 0x37 :: digits d
  | D8 d => 0x38 :: digits d
  | D9 d => 0x39 :: digits d
  end.

Definition str_of_nat (i : nat) : pystr := digits (Nat.to_uint i).

(** ** Exceptions *)

(** A raised exception: the name of its class and its argument. *)
Inductive exn :=
  | Raise (class : string) (arg : pystr).

Definition KeyError (key : pystr) : exn := Raise "KeyError" key.
Definition AssertionError : exn := Raise "AssertionError" [].

(** [UnicodeEncodeError]; the argument kept is its [object], the string
    that could not be encoded. *)
Definition UnicodeEncodeError (s : pystr) : exn := Raise "UnicodeEncodeError" s.

(** ** [urllib.parse.quote] with its default [safe="/"] *)

(** A surrogate code point, U+D800 to U+DFFF. *)
Definition is_surrogate (c : N) : bool := (0xD800 <=? c) && (c <=? 0xDFFF).

(** The UTF-8 bytes of a code point, one to four by its size. *)
Definition scalar_bytes (c : N) : list N :=
  if c <? 0x80 then [c]
  else if c <? 0x800 then [0xC0 + c / 64; 0x80 + c mod 64]
  else if c <? 0x10000 then
    [0xE0 + c / 4096; 0x80 + (c / 64) mod 64; 0x80 + c mod 64]
  else
    [0xF0 + c / 262144; 0x80 + (c / 4096) mod 64;
     0x80 + (c / 64) mod 64; 0x80 + c mod 64].

(** The UTF-8 codec on one code point: with the strict error handler a
    surrogate has no encoding. *)
Definition utf8_char (c : N) : option (list N) :=
  if is_surrogate c then None else Some (scalar_bytes c).

(** [s.encode("utf-8")]: the bytes of [s], or [UnicodeEncodeError] when
    [s] holds a surrogate. *)
Definition utf8 (s : pystr) : exn + list N :=
  match mapM utf8_char s with
  | Some bs => inr (concat bs)
  | None => inl (UnicodeEncodeError s)
  end.

(** The bytes [quote] leaves alone: [_ALWAYS_SAFE] and ["/"]. *)
Definition is_safe (b : N) : bool :=
  ((0x41 <=? b) && (b <=? 0x5A)) || ((0x61 <=? b) && (b <=? 0x7A))
  || ((0x30 <=? b) && (b <=? 0x39))
  || (b =? 0x5F) || (b =? 0x2E) || (b =? 0x2D) || (b =? 0x7E)
  || (b =? 0x2F).

(** One digit of ["%02X"]. *)
Definition hex_digit (d : N) : N :=
  if d <? 10 then 0x30 + d else 0x41 + (d - 10).

Definition quote_byte (b : N) : pystr :=
  if is_safe b then [b] else [PERCENT; hex_digit (b / 16); hex_digit (b mod 16)].

(** [quote(s)]: [s] is encoded first, then each byte is kept or escaped. *)
Definition quote (s : pystr) : exn + pystr :=
  match utf8 s with
  | inr bs => inr (bs ≫= quote_byte)
  | inl e => inl e
  end.

(** Code points of a Python string lie below [0x110000]. *)
Definition wf_str (s : pystr) : Prop := Forall (λ c, c < 0x110000) s.

(** ** rdflib terms, namespaces and the graph *)

Inductive node :=
  | URIRef (u : pystr)
  | Literal (l : pystr).

Global Instance node_eq_dec : EqDecision node.
Proof. solve_decision. Defined.

Global Instance node_countable : Countable node.
Proof.
  refine (inj_countable'
    (λ n, match n with URIRef u => inl u | Literal l => inr l end)
    (λ x, match x with inl u => URIRef u | inr l => Literal l end) _).
  by intros [].
Defined.

Definition triple : Type := node * node * node.

Definition subject (t : triple) : node := t.1.1.
Definition predicate (t : triple) : node := t.1.2.
Definition object (t : triple) : node := t.2.

Definition RECIPE : pystr := str "http://example.org/recipe/".
Definition MEAL : pystr := str "http://example.org/meal/".
Definition INGREDIENT : pystr := str "http://example.org/ingredient/".
Definition CATEGORY : pystr := str "http://example.org/category/".
Definition CUISINE : pystr := str "http://example.org/cuisine/".

(** [Namespace.term]: [ns[name]] and [ns.name] are [URIRef(ns + name)]. *)
Definition term (ns : pystr) (name : pystr) : node := URIRef (ns ++ name).

Definition RDF_type : node :=
  URIRef (str "http://www.w3.org/1999/02/22-rdf-syntax-ns#type").
Definition RDFS_label : node :=
  URIRef (str "http://www.w3.org/2000/01/rdf-schema#label").

(** ** Values of a record *)

Inductive pyval :=
  | PNone
  | PStr (s : pystr).

Global Instance pyval_eq_dec : EqDecision pyval.
Proof. solve_decision. Defined.

Abbreviation dict := (gmap pystr pyval).

(** [meal.get(key)]: the value, [None] for a missing key. *)
Definition get (meal : dict) (key : pystr) : pyval :=
  default PNone (meal !! key).

(** [ns[key]] on a value: rdflib's [term] appends [key] when it is a
    [str] and the empty string otherwise. *)
Definition term_of (ns : pystr) (key : pyval) : node :=
  term ns (match key with PStr s => s | PNone => [] end).

(** [f"{v}"] *)
Definition format (v : pyval) : pystr :=
  match v with PStr s => s | PNone => str "None" end.

(** ** The store and the monad of the script *)

(** What the mapper needs of the global [g]: [g.add(triple)]. *)
Class Store (G : Type) := store_add : triple → G → G.

(** rdflib's in-memory graph: a set of triples; adding a triple that is
    present changes nothing. *)
Abbreviation Graph := (gset triple).
Global Instance graph_store : Store Graph := λ t g, {[ t ]} ∪ g.

(** The sequence of [g.add] calls, oldest first. *)
Global Instance trace_store : Store (list triple) := λ t l, l ++ [t].

Definition M (G A : Type) : Type := G → (exn + A) * G.

Global Instance M_ret {G : Type} : MRet (M G) := λ A a g, (inr a, g).
Global Instance M_bind {G : Type} : MBind (M G) := λ A B k m g,
  match m g with
  | (inr a, g') => k a g'
  | (inl e, g') => (inl e, g')
  end.

Definition raise {G A : Type} (e : exn) : M G A := λ g, (inl e, g).

(** The outcome of a call that does not touch the store. *)
Definition call {G A : Type} (r : exn + A) : M G A := λ g, (r, g).

(** [g.add((s, p, o))] *)
Definition add `{Store G} (t : triple) : M G unit :=
  λ g, (inr tt, store_add t g).

(** [meal[key]] *)
Definition getitem {G : Type} (meal : dict) (key : pystr) : M G pyval :=
  match meal !! key with
  | Some v => mret v
  | None => raise (KeyError key)
  end.

(** rdflib's [Graph.add] asserts that each component is a term; a
    [None] coming out of [create_uri_ref] would stop there (the text of
    the assertion is left out). *)
Definition as_node {G : Type} (n : option node) : M G node :=
  match n with
  | Some n => mret n
  | None => raise AssertionError
  end.

(** [if v: body]. The source tests [meal.get(key)] and reads [meal[key]]
    again inside the branch; the record is not changed in between, so
    [body] receives the non-empty string the test found. *)
Definition if_truthy {G : Type} (v : pyval) (body : pystr → M G unit) : M G unit :=
  match v with
  | PStr s => if truth s then body s else mret tt
  | PNone => mret tt
  end.

(** [if c: body] *)
Definition when {G : Type} (c : bool) (body : M G unit) : M G unit :=
  if c then body else mret tt.

(** [for x in l: body(x)] *)
Fixpoint for_ {G A : Type} (l : list A) (body : A → M G unit) : M G unit :=
  match l with
  | [] => mret tt
  | x :: l' => body x;; for_ l' body
  end.

(** ** The two functions of the script *)

(** The local [safe_value] of [create_uri_ref]. *)
Definition safe_value (value : pystr) : exn + pystr :=
  quote (replace SPACE UNDERSCORE (strip value)).

Definition create_uri_ref (namespace : pystr) (value : pyval)
    : exn + option node :=
  match value with
  | PStr s =>
      if truth s then
        match safe_value s with
        | inr safe_value => inr (Some (term namespace safe_value))
        | inl e => inl e
        end
      else inr None
  | PNone => inr None
  end.

(** The [URIRef(f"{INGREDIENT}{meal_id}_ingredient_{i}")] of the loop. *)
Definition ingredient_uri (meal_id : pyval) (i : nat) : node :=
  URIRef (INGREDIENT ++ format meal_id ++ str "_ingredient_" ++ str_of_nat i).

Section mapper.
Context `{Store G}.

(** One turn of [for i in range(1, 21)]. *)
Definition ingredient_slot (meal : dict) (meal_id : pyval) (meal_uri : node)
    (i : nat) : M G unit :=
  let ingredient_name := get meal (str "strIngredient" ++ str_of_nat i) in
  let ingredient_measure := get meal (str "strMeasure" ++ str_of_nat i) in
  if_truthy ingredient_name (λ name,
    when (truth (strip name)) (
      let ingredient_uri := ingredient_uri meal_id i in
      add (ingredient_uri, RDF_type, term RECIPE (str "Ingredient"));;
      add (ingredient_uri, term RECIPE (str "ingredientName"),
           Literal (strip name));;
      if_truthy ingredient_measure (λ measure,
        when (truth (strip measure)) (
          add (ingredient_uri, term RECIPE (str "ingredientMeasure"),
               Literal (strip measure))));;
      add (meal_uri, term RECIPE (str "hasIngredient"), ingredient_uri))).

Definition add_meal_to_graph (meal : dict) : M G unit :=
  meal_id ← getitem meal (str "idMeal");
  let meal_uri := term_of MEAL meal_id in
  add (meal_uri, RDF_type, term RECIPE (str "Meal"));;
  if_truthy (get meal (str "strMeal")) (λ strMeal,
    add (meal_uri, term RECIPE (str "hasName"), Literal strMeal));;
  if_truthy (get meal (str "strInstructions")) (λ strInstructions,
    add (meal_uri, term RECIPE (str "hasInstructions"),
         Literal strInstructions));;
  if_truthy (get meal (str "strMealThumb")) (λ strMealThumb,
    add (meal_uri, term RECIPE (str "hasThumbnail"), Literal strMealThumb));;
  if_truthy (get meal (str "strYoutube")) (λ strYoutube,
    add (meal_uri, term RECIPE (str "hasYoutubeLink"), Literal strYoutube));;
  if_truthy (get meal (str "strCategory")) (λ strCategory,
    category_uri ← call (create_uri_ref CATEGORY (PStr strCategory))
                     ≫= as_node;
    add (category_uri, RDF_type, term RECIPE (str "Category"));;
    add (category_uri, RDFS_label, Literal strCategory);;
    add (meal_uri, term RECIPE (str "belongsToCategory"), category_uri));;
  if_truthy (get meal (str "strArea")) (λ strArea,
    cuisine_uri ← call (create_uri_ref CUISINE (PStr strArea))
                    ≫= as_node;
    add (cuisine_uri, RDF_type, term RECIPE (str "Cuisine"));;
    add (cuisine_uri, RDFS_label, Literal strArea);;
    add (meal_uri, term RECIPE (str "belongsToCuisine"), cuisine_uri));;
  for_ (seq 1 20) (ingredient_slot meal meal_id meal_uri).

(** The loop of [main]: [for meal in meals: add_meal_to_graph(meal)]. *)
Definition add_meals (meals : list dict) : M G unit :=
  for_ meals add_meal_to_graph.
End mapper.

(** The triples one call hands to [g.add], in order. *)
Definition emitted (meal : dict) : list triple :=
  (add_meal_to_graph (G:=list triple) meal []).2.

(** The record of the specification's worked example. *)
Definition beef_stew : dict :=
  list_to_map [
    (str "idMeal", PStr (str "52874"));
    (str "strMeal", PStr (str "Beef Stew"));
    (str "strCategory", PStr (str "Beef"));
    (str "strArea", PStr (str "Italian"));
    (str "strIngredient1", PStr (str "Beef"));
    (str "strMeasure1", PStr (str "1kg"))].

(** Truth value of a record value in a condition. *)
Definition truthy (v : pyval) : bool :=
  match v with PStr s => truth s | PNone => false end.

(** [g.add] of each triple of a list in turn. *)
Definition replay `{Store G} (l : list triple) (g : G) : G :=
  foldl (λ g t, store_add t g) g l.

(** A computation that returns normally after adding exactly the
    triples of [L], in that order, whatever the store held before. *)
Definition emits `{Store G} (m : M G unit) (L : list triple) : Prop :=
  ∀ g, m g = (inr tt, replay L g).

(** A computation that raises [e] after adding exactly the triples of
    [L]. *)
Definition fails `{Store G} (m : M G unit) (L : list triple) (e : exn)
    : Prop :=
  ∀ g, m g = (inl e, replay L g).

(** ** [quote] in closed form

    A string without surrogates is encodable; on such a string [utf8] and
    [quote] return [encoded] and [quoted] (lemmas [utf8_eq], [quote_eq],
    [safe_value_eq]). *)

Definition encodable (s : pystr) : bool :=
  forallb (λ c, negb (is_surrogate c)) s.

Definition encoded (s : pystr) : list N := s ≫= scalar_bytes.

Definition quoted (s : pystr) : pystr := encoded s ≫= quote_byte.

(** What [create_uri_ref] hands to [quote]. *)
Definition normalized (value : pystr) : pystr :=
  replace SPACE UNDERSCORE (strip value).

(** The identifier of a value whose normalized form is encodable. *)
Definition safe_name (value : pystr) : pystr := quoted (normalized value).

(** ** The triples of a record in closed form

    The lists below restate what the mapper adds, field by field; lemma
    [add_meal_to_graph_emits] ties them to the code. *)

Definition for_truthy (v : pyval) (f : pystr → list triple) : list triple :=
  match v with
  | PStr s => if truth s then f s else []
  | PNone => []
  end.

Definition scalar_triples (meal : dict) (meal_uri : node)
    (key property : string) : list triple :=
  for_truthy (get meal (str key)) (λ v,
    [(meal_uri, term RECIPE (str property), Literal v)]).

(** Whether building the entity of a field raises: the field is a
    non-empty string that [quote] cannot encode. *)
Definition raises (meal : dict) (key : string) : bool :=
  match get meal (str key) with
  | PStr v => truth v && negb (encodable (normalized v))
  | PNone => false
  end.

(** The exception raised then. *)
Definition entity_error (meal : dict) (key : string) : exn :=
  UnicodeEncodeError
    (normalized (match get meal (str key) with PStr v => v | PNone => [] end)).

(** The triples of a part of the mapper that runs unless an earlier part
    raised. *)
Definition guard (stop : bool) (L : list triple) : list triple :=
  if stop then [] else L.

Definition entity_triples (meal : dict) (meal_uri : node)
    (key : string) (ns : pystr) (class relation : string) : list triple :=
  for_truthy (get meal (str key)) (λ v,
    let uri := term ns (safe_name v) in
    [(uri, RDF_type, term RECIPE (str class));
     (uri, RDFS_label, Literal v);
     (meal_uri, term RECIPE (str relation), uri)]).

Definition measure_triples (meal : dict) (meal_id : pyval) (i : nat)
    : list triple :=
  for_truthy (get meal (str "strMeasure" ++ str_of_nat i)) (λ measure,
    if truth (strip measure)
    then [(ingredient_uri meal_id i, term RECIPE (str "ingredientMeasure"),
           Literal (strip measure))]
    else []).

Definition slot_triples (meal : dict) (meal_id : pyval) (meal_uri : node)
    (i : nat) : list triple :=
  for_truthy (get meal (str "strIngredient" ++ str_of_nat i)) (λ name,
    if truth (strip name)
    then [(ingredient_uri meal_id i, RDF_type, term RECIPE (str "Ingredient"));
          (ingredient_uri meal_id i, term RECIPE (str "ingredientName"),
           Literal (strip name))]
         ++ measure_triples meal meal_id i
         ++ [(meal_uri, term RECIPE (str "hasIngredient"),
              ingredient_uri meal_id i)]
    else []).

(** The mapper stops at the category when that raises, and at the area
    when the category did not raise and the area does. *)
Definition stops (meal : dict) : bool :=
  raises meal "strCategory" || raises meal "strArea".

Definition meal_triples (meal : dict) (meal_id : pyval) : list triple :=
  let meal_uri := term_of MEAL meal_id in
  [(meal_uri, RDF_type, term RECIPE (str "Meal"))]
  ++ scalar_triples meal meal_uri "strMeal" "hasName"
  ++ scalar_triples meal meal_uri "strInstructions" "hasInstructions"
  ++ scalar_triples meal meal_uri "strMealThumb" "hasThumbnail"
  ++ scalar_triples meal meal_uri "strYoutube" "hasYoutubeLink"
  ++ guard (raises meal "strCategory")
       (entity_triples meal meal_uri "strCategory" CATEGORY
          "Category" "belongsToCategory")
  ++ guard (stops meal)
       (entity_triples meal meal_uri "strArea" CUISINE
          "Cuisine" "belongsToCuisine")
  ++ guard (stops meal) (seq 1 20 ≫= slot_triples meal meal_id meal_uri).

(** How the mapper ends on a record with an identifier. *)
Definition meal_result (meal : dict) : exn + unit :=
  if raises meal "strCategory" then inl (entity_error meal "strCategory")
  else if raises meal "strArea" then inl (entity_error meal "strArea")
  else inr tt.

(** What the specification's worked example lists, spelled out. *)
Definition beef_stew_triples : list triple :=
  let meal := URIRef (str "http://example.org/meal/52874") in
  let category := URIRef (str "http://example.org/category/Beef") in
  let cuisine := URIRef (str "http://example.org/cuisine/Italian") in
  let ingredient :=
    URIRef (str "http://example.org/ingredient/52874_ingredient_1") in
  [ (meal, RDF_type, URIRef (str "http://example.org/recipe/Meal"));
    (meal, URIRef (str "http://example.org/recipe/hasName"), Literal (str "Beef Stew"));
    (category, RDF_type, URIRef (str "http://example.org/recipe/Category"));
    (category, RDFS_label, Literal (str "Beef"));
    (meal, URIRef (str "http://example.org/recipe/belongsToCategory"), category);
    (cuisine, RDF_type, URIRef (str "http://example.org/recipe/Cuisine"));
    (cuisine, RDFS_label, Literal (str "Italian"));
    (meal, URIRef (str "http://example.org/recipe/belongsToCuisine"), cuisine);
    (ingredient, RDF_type, URIRef (str "http://example.org/recipe/Ingredient"));
    (ingredient, URIRef (str "http://example.org/recipe/ingredientName"), Literal (str "Beef"));
    (ingredient, URIRef (str "http://example.org/recipe/ingredientMeasure"), Literal (str "1kg"));
    (meal, URIRef (str "http://example.org/recipe/hasIngredient"), ingredient) ].

(** The fields of a record other than its identifier that decide
    whether a triple is added. *)
Definition optional_fields : list pystr :=
  (str <$> ["strMeal"; "strInstructions"; "strMealThumb"; "strYoutube";
            "strCategory"; "strArea"]%string)
  ++ ((λ i, str "strIngredient" ++ str_of_nat i) <$> seq 1 20).


(** A field "after trimming": its stripped text when that is not empty. *)
Definition trimmed (v : pyval) : option pystr :=
  match v with
  | PStr s => if truth (strip s) then Some (strip s) else None
  | PNone => None
  end.

(** Slot [i] in the specification's words: nothing unless the name is
    non-empty after trimming; otherwise the type triple, the
    ingredientName triple, the ingredientMeasure triple if the measure is
    non-empty after trimming, and the Meal-to-Ingredient relation, all on
    the URI made of the meal id and the slot index. *)
Definition ingredient_spec (meal : dict) (meal_id : pyval) (i : nat)
    : list triple :=
  let ingredient := ingredient_uri meal_id i in
  match trimmed (get meal (str "strIngredient" ++ str_of_nat i)) with
  | Some name =>
      [(ingredient, RDF_type, term RECIPE (str "Ingredient"));
       (ingredient, term RECIPE (str "ingredientName"), Literal name)]
      ++ match trimmed (get meal (str "strMeasure" ++ str_of_nat i)) with
         | Some measure =>
             [(ingredient, term RECIPE (str "ingredientMeasure"),
               Literal measure)]
         | None => []
         end
      ++ [(term_of MEAL meal_id, term RECIPE (str "hasIngredient"),
           ingredient)]
  | None => []
  end.

(** A triple that has a URI of the ingredient namespace as its subject or
    its object. *)
Definition about_ingredient (t : triple) : Prop :=
  ∃ x, subject t = URIRef (INGREDIENT ++ x)
       ∨ object t = URIRef (INGREDIENT ++ x).

(** Two meals that both use salt. *)
Definition salted_fish : dict :=
  list_to_map [ (str "idMeal", PStr (str "52944"));
                (str "strIngredient1", PStr (str "salt")) ].
Definition salted_caramel : dict :=
  list_to_map [ (str "idMeal", PStr (str "52788"));
                (str "strIngredient1", PStr (str "salt")) ].

(** A record whose category is a lone surrogate, as the JSON text
    ["\ud800"] decodes to, and that uses salt. *)
Definition surrogate_category : dict :=
  list_to_map [ (str "idMeal", PStr (str "52874"));
                (str "strCategory", PStr [0xD800]);
                (str "strIngredient1", PStr (str "salt")) ].

(** A second record of that category, with blanks around it. *)
Definition padded_surrogate : dict :=
  list_to_map [ (str "idMeal", PStr (str "52997"));
                (str "strCategory", PStr [0x20; 0xD800; 0x20]) ].

(** A node that is not of the ingredient namespace. *)
Definition elsewhere (n : node) : Prop := ∀ x, n ≠ URIRef (INGREDIENT ++ x).

(** The four scalar fields and the property each is stored under. *)
Definition scalar_fields : list (string * string) :=
  [("strMeal", "hasName"); ("strInstructions", "hasInstructions");
   ("strMealThumb", "hasThumbnail"); ("strYoutube", "hasYoutubeLink")]%string.

(** The two kinds of shared entity: field, namespace, class, relation. *)
Definition entity_kinds : list (string * pystr * string * string) :=
  [("strCategory", CATEGORY, "Category", "belongsToCategory");
   ("strArea", CUISINE, "Cuisine", "belongsToCuisine")]%string.

(** A record of the cuisine the specification names, with blanks around. *)
Definition padded_italian : dict :=
  list_to_map [ (str "idMeal", PStr (str "52982"));
                (str "strArea", PStr (str " Italian ")) ].

(** Two records of one category, one of them with blanks around it. *)
Definition beef_pie : dict :=
  list_to_map [ (str "idMeal", PStr (str "52997"));
                (str "strCategory", PStr (str " Beef ")) ].

(** What [create_uri_ref] treats as a letter: any character that is
    neither blank nor the underscore. The letters of every script, in
    either case, are among them. *)
Definition letter (c : N) : bool := negb (is_space c) && negb (c =? UNDERSCORE).

(** Two characters that are the same, or are both letters. *)
Definition same_but_letters (c1 c2 : N) : Prop :=
  c1 = c2 ∨ (letter c1 = true ∧ letter c2 = true).

(** Two labels that differ, but position by position only where both hold
    a letter: in particular two labels that differ only by the case of
    their letters, as [Seafood] and [seafood] do. *)
Definition differ_in_letters (s1 s2 : pystr) : Prop :=
  s1 ≠ s2 ∧ Forall2 same_but_letters s1 s2.

(** [s.split()]: the maximal runs of characters that are not blank. *)
Fixpoint words (s : pystr) : list pystr :=
  match s with
  | [] => []
  | c :: s' =>
      if is_space c then words s'
      else match s' with
           | [] => [[c]]
           | d :: _ =>
               if is_space d then [c] :: words s'
               else match words s' with
                    | w :: ws => (c :: w) :: ws
                    | [] => [[c]]
                    end
           end
  end.

(** Two labels made of the same words that differ between their first and
    last word, that is, only by the blanks that separate the words. *)
Definition differ_by_inner_space (s1 s2 : pystr) : Prop :=
  words s1 = words s2 ∧ strip s1 ≠ strip s2.

(** No word after the first begins with an underscore. *)
Definition plain_word_starts (s : pystr) : Prop :=
  Forall (λ w, head w ≠ Some UNDERSCORE) (tail (words s)).

(** The characters up to the first blank, and what follows them. *)
Fixpoint first_run (s : pystr) : pystr :=
  match s with
  | [] => []
  | c :: s' => if is_space c then [] else c :: first_run s'
  end.

Fixpoint after_run (s : pystr) : pystr :=
  match s with
  | [] => []
  | c :: s' => if is_space c then s else after_run s'
  end.

(** Every shape a triple added for a record can have, with the field it
    comes from; [mapper_triple_iff] shows these are the triples of
    [emitted] and no others. *)
Inductive mapper_triple (meal : dict) (meal_id : pyval) : triple → Prop :=
  | mt_meal :
      mapper_triple meal meal_id
        (term_of MEAL meal_id, RDF_type, term RECIPE (str "Meal"))
  | mt_scalar key property v :
      (key, property) ∈ scalar_fields →
      get meal (str key) = PStr v → truth v = true →
      mapper_triple meal meal_id
        (term_of MEAL meal_id, term RECIPE (str property), Literal v)
  | mt_entity_type key ns class relation v :
      (key, ns, class, relation) ∈ entity_kinds →
      get meal (str key) = PStr v → truth v = true →
      raises meal key = false → raises meal "strCategory" = false →
      mapper_triple meal meal_id
        (term ns (safe_name v), RDF_type, term RECIPE (str class))
  | mt_entity_label key ns class relation v :
      (key, ns, class, relation) ∈ entity_kinds →
      get meal (str key) = PStr v → truth v = true →
      raises meal key = false → raises meal "strCategory" = false →
      mapper_triple meal meal_id
        (term ns (safe_name v), RDFS_label, Literal v)
  | mt_entity_relation key ns class relation v :
      (key, ns, class, relation) ∈ entity_kinds →
      get meal (str key) = PStr v → truth v = true →
      raises meal key = false → raises meal "strCategory" = false →
      mapper_triple meal meal_id
        (term_of MEAL meal_id, term RECIPE (str relation),
         term ns (safe_name v))
  | mt_slot_type i name :
      (1 ≤ i ≤ 20)%nat →
      get meal (str "strIngredient" ++ str_of_nat i) = PStr name →
      truth (strip name) = true →
      stops meal = false →
      mapper_triple meal meal_id
        (ingredient_uri meal_id i, RDF_type, term RECIPE (str "Ingredient"))
  | mt_slot_name i name :
      (1 ≤ i ≤ 20)%nat →
      get meal (str "strIngredient" ++ str_of_nat i) = PStr name →
      truth (strip name) = true →
      stops meal = false →
      mapper_triple meal meal_id
        (ingredient_uri meal_id i, term RECIPE (str "ingredientName"),
         Literal (strip name))
  | mt_slot_measure i name measure :
      (1 ≤ i ≤ 20)%nat →
      get meal (str "strIngredient" ++ str_of_nat i) = PStr name →
      truth (strip name) = true →
      get meal (str "strMeasure" ++ str_of_nat i) = PStr measure →
      truth (strip measure) = true →
      stops meal = false →
      mapper_triple meal meal_id
        (ingredient_uri meal_id i, term RECIPE (str "ingredientMeasure"),
         Literal (strip measure))
  | mt_slot_relation i name :
      (1 ≤ i ≤ 20)%nat →
      get meal (str "strIngredient" ++ str_of_nat i) = PStr name →
      truth (strip name) = true →
      stops meal = false →
      mapper_triple meal meal_id
        (term_of MEAL meal_id, term RECIPE (str "hasIngredient"),
         ingredient_uri meal_id i).

(** How one call of the mapper ends, and the records the loop of [main]
    gets to: those up to and including the first one that raises. *)
Definition outcome (meal : dict) : exn + unit :=
  (add_meal_to_graph (G:=list triple) meal []).1.

Fixpoint processed (meals : list dict) : list dict :=
  match meals with
  | [] => []
  | meal :: meals' =>
      meal :: match outcome meal with
              | inr _ => processed meals'
              | inl _ => []
              end
  end.

(** How the loop ends: with the first exception, or normally. *)
Fixpoint loop_outcome (meals : list dict) : exn + unit :=
  match meals with
  | [] => inr tt
  | meal :: meals' =>
      match outcome meal with
      | inr _ => loop_outcome meals'
      | inl e => inl e
      end
  end.

(** ** [fetch_random_meals] and [main]

    The network is a parameter: [replies i] is what turn [i] of the loop
    meets when it calls [requests.get]. The console is a UTF-8 text stream
    with Python's default strict error handler: [print] raises
    [UnicodeEncodeError] on a line that holds a surrogate and writes any
    other line. Of the lines the script prints, only the one that shows a
    meal's name can hold one; the others are ASCII text or the message of
    an exception, and their [print] is left out. *)

(** Either [requests.get] raises, or it returns a response with a status
    code; [json] is the list found under ["meals"] in the decoded body,
    [None] when [response.json()["meals"]] has no first element to take
    because the body is not JSON, lacks the key or holds [null] there. *)
Inductive reply :=
  | Raises
  | Response (status_code : nat) (json : option (list dict)).

(** The list [meals] being filled and the number of [time.sleep(0.5)]
    calls made so far. *)
Record fetch_state := { fetched : list dict; slept : nat }.

(** [requests.get(url)] in turn [i]. *)
Definition requests_get (replies : nat → reply) (i : nat)
    : M fetch_state (nat * option (list dict)) :=
  match replies i with
  | Raises => raise (Raise "RequestException" [])
  | Response status_code json => mret (status_code, json)
  end.

(** [response.json()["meals"][0]] *)
Definition first_meal (json : option (list dict)) : M fetch_state dict :=
  match json with
  | None => raise (Raise "Exception" [])
  | Some [] => raise (Raise "IndexError" [])
  | Some (meal :: _) => mret meal
  end.

(** [meals.append(meal)] *)
Definition append (meal : dict) : M fetch_state unit :=
  λ st, (inr tt, {| fetched := fetched st ++ [meal]; slept := slept st |}).

(** [time.sleep(0.5)] *)
Definition sleep : M fetch_state unit :=
  λ st, (inr tt, {| fetched := fetched st; slept := S (slept st) |}).

(** [try: body except Exception as e: handler(e)] *)
Definition try_except {S : Type} (body : M S unit) (handler : exn → M S unit)
    : M S unit :=
  λ st, match body st with
        | (inl e, st') => handler e st'
        | (inr tt, st') => (inr tt, st')
        end.

(** [print(line)] *)
Definition print {S : Type} (line : pystr) : M S unit :=
  match utf8 line with
  | inr _ => mret tt
  | inl e => raise e
  end.

(** [f"Fetched: {strMeal} ({i+1}/{count})"] *)
Definition fetched_line (strMeal : pyval) (i count : nat) : pystr :=
  str "Fetched: " ++ format strMeal
  ++ str " (" ++ str_of_nat (i + 1) ++ str "/" ++ str_of_nat count ++ str ")".

(** One turn of [for i in range(count)]. The [print] after the append
    formats [meal['strMeal']], which raises for a record without that
    key, and writes the line, which raises for a name with a surrogate;
    the handler only prints. *)
Definition fetch_turn (replies : nat → reply) (count i : nat)
    : M fetch_state unit :=
  try_except
    (response ← requests_get replies i;
     when (bool_decide (response.1 = 200%nat))
       (meal ← first_meal response.2;
        append meal;;
        strMeal ← getitem meal (str "strMeal");
        print (fetched_line strMeal i count));;
     sleep)
    (λ e, mret tt).

Definition fetch_loop (replies : nat → reply) (count : nat)
    : M fetch_state unit :=
  for_ (seq 0 count) (fetch_turn replies count).

(** [fetch_random_meals(count)]: the list returned. *)
Definition fetch_random_meals (replies : nat → reply) (count : nat)
    : list dict :=
  fetched (fetch_loop replies count {| fetched := []; slept := 0 |}).2.


(** The record a turn contributes: the first one of a 200 response. *)
Definition contributed (r : reply) : option dict :=
  match r with
  | Response status_code (Some (meal :: _)) =>
      if bool_decide (status_code = 200%nat) then Some meal else None
  | _ => None
  end.

(** A turn whose [try] body ran to its end, and so slept: the request
    returned, and when the status was 200 the body held a first record
    with a name the console can show. *)
Definition completed (r : reply) : bool :=
  match r with
  | Raises => false
  | Response status_code json =>
      if bool_decide (status_code = 200%nat)
      then match json with
           | Some (meal :: _) =>
               match meal !! str "strMeal" with
               | Some strMeal => encodable (format strMeal)
               | None => false
               end
           | _ => false
           end
      else true
  end.

(** A network that answers the first request with the example record and
    fails from then on. *)
Definition one_good_reply (i : nat) : reply :=
  match i with
  | O => Response 200 (Some [beef_stew])
  | S _ => Raises
  end.

(** ** [visualize_knowledge_graph] (src/graph_generate.py): reading the graph

    The loop over the triples of the graph and the dictionary of node
    labels built after it; layout and drawing are matplotlib's and
    networkx's and are left out. *)

Definition SLASH : N := 0x2F.
Definition HASH : N := 0x23.
Definition COLON : N := 0x3A.

(** [str(node)] *)
Definition node_str (n : node) : pystr :=
  match n with URIRef u => u | Literal l => l end.

(** [hay.startswith(needle)] *)
Fixpoint starts_with (needle hay : pystr) : bool :=
  match needle, hay with
  | [], _ => true
  | _ :: _, [] => false
  | c :: needle', d :: hay' => (c =? d) && starts_with needle' hay'
  end.

(** [needle in hay] *)
Fixpoint contains (needle hay : pystr) : bool :=
  starts_with needle hay
  || match hay with
     | [] => false
     | _ :: hay' => contains needle hay'
     end.

(** [s.split(sep)[-1]]: what follows the last [sep], all of [s] when
    there is none. *)
Fixpoint last_segment (sep : N) (s : pystr) : pystr :=
  match s with
  | [] => []
  | c :: s' =>
      if bool_decide (sep ∈ s') then last_segment sep s'
      else if c =? sep then s' else s
  end.

(** [node_types] (a [defaultdict(set)]), [node_labels], and the edges of
    [nx_graph] with their [label] attribute. *)
Record viz_state := {
  node_types : gmap string (gset pystr);
  node_labels : gmap pystr pystr;
  edges : gmap (pystr * pystr) pystr
}.

(** [node_types[kind].add(node)] *)
Definition add_type (kind : string) (node : pystr) (st : viz_state)
    : viz_state :=
  {| node_types :=
       <[kind := {[ node ]} ∪ default ∅ (node_types st !! kind)]>
         (node_types st);
     node_labels := node_labels st;
     edges := edges st |}.

(** [node_labels[node] = label] *)
Definition set_label (node label : pystr) (st : viz_state) : viz_state :=
  {| node_types := node_types st;
     node_labels := <[node := label]> (node_labels st);
     edges := edges st |}.

(** [nx_graph.add_edge(u, v, label=label)] *)
Definition add_edge (u v label : pystr) (st : viz_state) : viz_state :=
  {| node_types := node_types st;
     node_labels := node_labels st;
     edges := <[(u, v) := label]> (edges st) |}.

(** The [if]/[elif] chain on the subject. *)
Definition subject_kind (subj_str : pystr) : option string :=
  if contains MEAL subj_str then Some "meal"%string
  else if contains CATEGORY subj_str then Some "category"%string
  else if contains CUISINE subj_str then Some "cuisine"%string
  else if contains INGREDIENT subj_str then Some "ingredient"%string
  else None.

(** The [if]/[elif] chain on the object, in its own order; [None] is the
    final [else: continue]. *)
Definition object_kind (obj_str : pystr) : option string :=
  if contains CATEGORY obj_str then Some "category"%string
  else if contains CUISINE obj_str then Some "cuisine"%string
  else if contains INGREDIENT obj_str then Some "ingredient"%string
  else if contains MEAL obj_str then Some "meal"%string
  else None.

(** The body of [for subj, pred, obj in rdf_graph]. *)
Definition viz_step (st : viz_state) (t : triple) : viz_state :=
  let '(subj, pred, obj) := t in
  let subj_str := node_str subj in
  let pred_str := last_segment HASH (last_segment SLASH (node_str pred)) in
  let obj_str := node_str obj in
  let st :=
    match subject_kind subj_str with
    | Some kind => add_type kind subj_str st
    | None => st
    end in
  if bool_decide (pred ∈ [RDF_type; RDFS_label]) then st
  else
    match obj with
    | Literal _ =>
        if bool_decide (pred_str ∈ [str "hasName"; str "label";
                                    str "ingredientName"])
        then set_label subj_str (take 20 obj_str) st
        else st
    | URIRef _ =>
        match object_kind obj_str with
        | Some kind =>
            add_edge subj_str obj_str pred_str (add_type kind obj_str st)
        | None => st
        end
    end.

(** The whole loop; [ts] is the order in which the graph hands out its
    triples. *)
Definition viz_loop (ts : list triple) : viz_state :=
  foldl viz_step
    {| node_types := ∅; node_labels := ∅; edges := ∅ |} ts.

(** [node_types.get(kind, [])] as a set. *)
Definition nodes_of (kind : string) (st : viz_state) : gset pystr :=
  default ∅ (node_types st !! kind).

(** [label_nodes]: for each category and cuisine node its entry of
    [node_labels], or else the last segment of the node cut to 15
    characters; [None] for a node that is not a key. *)
Definition label_nodes (st : viz_state) (node : pystr) : option pystr :=
  if bool_decide (node ∈ nodes_of "category" st ∪ nodes_of "cuisine" st)
  then Some (default (take 15 (last_segment SLASH node))
                     (node_labels st !! node))
  else None.

(** What makes one turn of the loop put [x] among the nodes of a kind,
    draw the edge [u -> v] with label [l], or give [x] the label [l]. *)
Definition type_source (kind : string) (x : pystr) (t : triple) : Prop :=
  (subject_kind (node_str (subject t)) = Some kind
   ∧ x = node_str (subject t))
  ∨ ((predicate t ∉ [RDF_type; RDFS_label])
     ∧ (∃ u, object t = URIRef u)
     ∧ object_kind (node_str (object t)) = Some kind
     ∧ x = node_str (object t)).

Definition edge_source (u v l : pystr) (t : triple) : Prop :=
  (predicate t ∉ [RDF_type; RDFS_label])
  ∧ (∃ o, object t = URIRef o)
  ∧ is_Some (object_kind (node_str (object t)))
  ∧ u = node_str (subject t) ∧ v = node_str (object t)
  ∧ l = last_segment HASH (last_segment SLASH (node_str (predicate t))).

Definition label_source (x l : pystr) (t : triple) : Prop :=
  (predicate t ∉ [RDF_type; RDFS_label])
  ∧ (∃ lit, object t = Literal lit ∧ l = take 20 lit)
  ∧ last_segment HASH (last_segment SLASH (node_str (predicate t)))
    ∈ [str "hasName"; str "label"; str "ingredientName"]
  ∧ x = node_str (subject t).

(** The three relations of the schema, and the kind of node the drawing
    has for each class. *)
Definition relations : list string :=
  ["belongsToCategory"; "belongsToCuisine"; "hasIngredient"]%string.

Definition kind_table : list (string * string) :=
  [("meal", "Meal"); ("category", "Category"); ("cuisine", "Cuisine");
   ("ingredient", "Ingredient")]%string.

(** A record whose identifier, if it is a string, has no colon, and whose
    category and area are strings Python can hold. *)
Definition plain_record (meal : dict) : Prop :=
  (∀ id, meal !! str "idMeal" = Some (PStr id) → COLON ∉ id)
  ∧ (∀ v, get meal (str "strCategory") = PStr v → wf_str v)
  ∧ (∀ v, get meal (str "strArea") = PStr v → wf_str v).

(** * Properties *)

Example strip_ex : strip (str "  a b	 ") = str "a b".
Proof. reflexivity. Qed.

Example str_of_nat_ex : str_of_nat 20 = str "20" ∧ str_of_nat 0 = str "0".
Proof. split; reflexivity. Qed.

(** ** [quote] in closed form *)

Lemma mapM_utf8_char (s : pystr) :
  mapM utf8_char s = if encodable s then Some (scalar_bytes <$> s) else None.
Proof.
  induction s as [|c s IH]; [done|].
  change (mapM utf8_char (c :: s))
    with (utf8_char c ≫= λ y, mapM utf8_char s ≫= λ k, mret (y :: k)).
  change (encodable (c :: s)) with (negb (is_surrogate c) && encodable s).
  rewrite IH. unfold utf8_char.
  destruct (is_surrogate c); [done|].
  by destruct (encodable s).
Qed.

Lemma concat_fmap_bind {A B} (f : A → list B) (l : list A) :
  concat (f <$> l) = l ≫= f.
Proof.
  induction l as [|x l IH]; [done|].
  by rewrite fmap_cons, bind_cons, <- IH.
Qed.

Lemma utf8_eq (s : pystr) :
  utf8 s = if encodable s then inr (encoded s)
           else inl (UnicodeEncodeError s).
Proof.
  unfold utf8. rewrite mapM_utf8_char.
  destruct (encodable s); [|done]. by rewrite concat_fmap_bind.
Qed.

Lemma quote_eq (s : pystr) :
  quote s = if encodable s then inr (quoted s)
            else inl (UnicodeEncodeError s).
Proof. unfold quote. rewrite utf8_eq. by destruct (encodable s). Qed.

Lemma safe_value_eq (v : pystr) :
  safe_value v = if encodable (normalized v) then inr (safe_name v)
                 else inl (UnicodeEncodeError (normalized v)).
Proof. apply quote_eq. Qed.

Lemma safe_value_inr (v u : pystr) :
  safe_value v = inr u ↔ encodable (normalized v) = true ∧ u = safe_name v.
Proof.
  rewrite safe_value_eq. destruct (encodable (normalized v)).
  - split; [by intros [= <-] | by intros [_ ->]].
  - split; [done | by intros [? _]].
Qed.

Lemma create_uri_ref_eq (ns v : pystr) :
  truth v = true →
  create_uri_ref ns (PStr v)
  = if encodable (normalized v) then inr (Some (term ns (safe_name v)))
    else inl (UnicodeEncodeError (normalized v)).
Proof.
  intros Hv. unfold create_uri_ref. rewrite Hv, safe_value_eq.
  by destruct (encodable (normalized v)).
Qed.

Example quote_ex1 : quote (str "Beef Stew") = inr (str "Beef%20Stew").
Proof. reflexivity. Qed.

Example quote_ex2 :
  quote [0xE9; 0x20AC; 0x1F600] = inr (str "%C3%A9%E2%82%AC%F0%9F%98%80").
Proof. reflexivity. Qed.

Example quote_ex3 :
  quote [0x61; 0xD800] = inl (UnicodeEncodeError [0x61; 0xD800]).
Proof. reflexivity. Qed.

(** ** Rules for [emits] and [fails] *)

Section emits.
Context `{Store G}.
Implicit Types (m k : M G unit) (L : list triple).

Lemma replay_app L1 L2 (g : G) :
  replay (L1 ++ L2) g = replay L2 (replay L1 g).
Proof. apply foldl_app. Qed.

Lemma emits_ret : emits (G:=G) (mret tt) [].
Proof. by intros g. Qed.

Lemma emits_add t : emits (G:=G) (add t) [t].
Proof. by intros g. Qed.

Lemma emits_seq m k L1 L2 :
  emits m L1 → emits k L2 → emits (m;; k) (L1 ++ L2).
Proof.
  intros Hm Hk g. unfold mbind, M_bind.
  by rewrite Hm, Hk, replay_app.
Qed.

Lemma emits_then_fails m k L1 L2 e :
  emits m L1 → fails k L2 e → fails (m;; k) (L1 ++ L2) e.
Proof.
  intros Hm Hk g. unfold mbind, M_bind.
  by rewrite Hm, Hk, replay_app.
Qed.

Lemma fails_seq m k L e : fails m L e → fails (m;; k) L e.
Proof. intros Hm g. unfold mbind, M_bind. by rewrite Hm. Qed.

Lemma emits_if_truthy v (body : pystr → M G unit) f :
  (∀ s, truth s = true → emits (body s) (f s)) →
  emits (if_truthy v body) (for_truthy v f).
Proof.
  intros Hb. destruct v as [|s]; simpl; [apply emits_ret|].
  destruct (truth s) eqn:Hs; [by apply Hb | apply emits_ret].
Qed.

Lemma emits_when (c : bool) m L :
  emits m L → emits (when c m) (if c then L else []).
Proof. destruct c; [done | intros _; apply emits_ret]. Qed.

Lemma emits_for {A} (l : list A) (body : A → M G unit) f :
  (∀ x, emits (body x) (f x)) → emits (for_ l body) (l ≫= f).
Proof.
  intros Hb. induction l as [|x l IH]; simpl; [apply emits_ret|].
  by apply emits_seq.
Qed.

Lemma ingredient_slot_emits meal meal_id meal_uri i :
  emits (ingredient_slot meal meal_id meal_uri i)
        (slot_triples meal meal_id meal_uri i).
Proof.
  unfold ingredient_slot, slot_triples.
  apply emits_if_truthy; intros name _.
  apply emits_when.
  apply (emits_seq _ _ [_]); [apply emits_add|].
  apply (emits_seq _ _ [_]); [apply emits_add|].
  apply emits_seq; [|apply emits_add].
  apply emits_if_truthy; intros measure _.
  apply emits_when, emits_add.
Qed.

(** The entity of a field is built and its three triples are added when
    [quote] can encode the field. *)
Lemma entity_emits meal meal_uri key ns class relation :
  raises meal key = false →
  emits
    (if_truthy (get meal (str key)) (λ v,
       uri ← call (create_uri_ref ns (PStr v)) ≫= as_node;
       add (uri, RDF_type, term RECIPE (str class));;
       add (uri, RDFS_label, Literal v);;
       add (meal_uri, term RECIPE (str relation), uri)))
    (entity_triples meal meal_uri key ns class relation).
Proof.
  unfold raises, entity_triples. intros Hr.
  destruct (get meal (str key)) as [|v]; cbn [if_truthy for_truthy];
    [apply emits_ret|].
  destruct (truth v) eqn:Hv; [|apply emits_ret].
  cbn [andb] in Hr. apply negb_false_iff in Hr.
  intros g. unfold mbind, M_bind, call.
  rewrite (create_uri_ref_eq _ _ Hv), Hr. reflexivity.
Qed.

(** Otherwise the call of [create_uri_ref] raises, before any of them. *)
Lemma entity_fails meal meal_uri key ns class relation :
  raises meal key = true →
  fails
    (if_truthy (get meal (str key)) (λ v,
       uri ← call (create_uri_ref ns (PStr v)) ≫= as_node;
       add (uri, RDF_type, term RECIPE (str class));;
       add (uri, RDFS_label, Literal v);;
       add (meal_uri, term RECIPE (str relation), uri)))
    [] (entity_error meal key).
Proof.
  unfold raises, entity_error. intros Hr.
  destruct (get meal (str key)) as [|v]; [done|]. cbn [if_truthy].
  destruct (truth v) eqn:Hv; [|done].
  cbn [andb] in Hr. apply negb_true_iff in Hr.
  intros g. unfold mbind, M_bind, call.
  rewrite (create_uri_ref_eq _ _ Hv), Hr. reflexivity.
Qed.

Lemma emits_bind_ret {A} (a : A) (k : A → M G unit) L :
  emits (k a) L → emits (mret a ≫= k) L.
Proof. intros Hk g. exact (Hk g). Qed.

(** The mapper on a record with an identifier: what it adds and how it
    ends. *)
Lemma add_meal_to_graph_run meal meal_id (g : G) :
  meal !! str "idMeal" = Some meal_id →
  add_meal_to_graph meal g
  = (meal_result meal, replay (meal_triples meal meal_id) g).
Proof.
  intros Hid. revert g. unfold add_meal_to_graph, getitem. rewrite Hid.
  change (mret meal_id ≫= ?k) with (k meal_id). cbv beta zeta.
  unfold meal_triples, meal_result, stops. cbv zeta.
  destruct (raises meal "strCategory") eqn:Hc;
    [|destruct (raises meal "strArea") eqn:Ha]; cbn [orb guard].
  - change (∀ g, ?m g = (inl ?e, replay ?L g)) with (fails m L e).
    apply emits_then_fails; [apply emits_add|].
    do 4 (apply emits_then_fails;
          [apply emits_if_truthy; intros v _; apply emits_add|]).
    apply fails_seq. by apply entity_fails.
  - change (∀ g, ?m g = (inl ?e, replay ?L g)) with (fails m L e).
    apply emits_then_fails; [apply emits_add|].
    do 4 (apply emits_then_fails;
          [apply emits_if_truthy; intros v _; apply emits_add|]).
    apply emits_then_fails; [by apply entity_emits|].
    apply fails_seq. by apply entity_fails.
  - change (∀ g, ?m g = (inr tt, replay ?L g)) with (emits m L).
    apply emits_seq; [apply emits_add|].
    do 4 (apply emits_seq;
          [apply emits_if_truthy; intros v _; apply emits_add|]).
    do 2 (apply emits_seq; [by apply entity_emits|]).
    apply emits_for. intros i. apply ingredient_slot_emits.
Qed.

Lemma add_meal_to_graph_KeyError meal (g : G) :
  meal !! str "idMeal" = None →
  add_meal_to_graph meal g = (inl (KeyError (str "idMeal")), g).
Proof.
  intros Hid. unfold add_meal_to_graph, getitem. by rewrite Hid.
Qed.
End emits.

Lemma replay_trace (L l : list triple) : replay L l = l ++ L.
Proof.
  revert l. induction L as [|t L IH]; intros l; simpl.
  - by rewrite app_nil_r.
  - rewrite IH. unfold store_add, trace_store. by rewrite <- app_assoc.
Qed.

Lemma replay_graph (L : list triple) (g : Graph) :
  replay L g = g ∪ list_to_set L.
Proof.
  revert g. induction L as [|t L IH]; intros g; simpl.
  - by rewrite (right_id_L ∅ (∪)).
  - rewrite IH. unfold store_add, graph_store.
    by rewrite (comm_L (∪) {[t]} g), <- (assoc_L (∪)).
Qed.

Lemma emitted_eq (meal : dict) (meal_id : pyval) :
  meal !! str "idMeal" = Some meal_id →
  emitted meal = meal_triples meal meal_id.
Proof.
  intros Hid. unfold emitted.
  by rewrite (add_meal_to_graph_run meal meal_id [] Hid), replay_trace.
Qed.

Lemma emitted_no_id (meal : dict) :
  meal !! str "idMeal" = None → emitted meal = [].
Proof.
  intros Hid. unfold emitted. by rewrite add_meal_to_graph_KeyError.
Qed.

Lemma outcome_eq (meal : dict) (meal_id : pyval) :
  meal !! str "idMeal" = Some meal_id → outcome meal = meal_result meal.
Proof.
  intros Hid. unfold outcome.
  by rewrite (add_meal_to_graph_run meal meal_id [] Hid).
Qed.

(** One call on a graph: the outcome, and the triples joined to the
    graph, are those of the call on its own. *)
Lemma add_meal_to_graph_graph (meal : dict) (g : Graph) :
  add_meal_to_graph meal g = (outcome meal, g ∪ list_to_set (emitted meal)).
Proof.
  destruct (meal !! str "idMeal") as [meal_id|] eqn:Hid.
  - rewrite (outcome_eq _ _ Hid), (emitted_eq _ _ Hid).
    by rewrite (add_meal_to_graph_run meal meal_id g Hid), replay_graph.
  - rewrite (emitted_no_id _ Hid). unfold outcome.
    rewrite !add_meal_to_graph_KeyError by done. simpl.
    by rewrite (right_id_L ∅ (∪)).
Qed.

(** A record is mapped when the call returns normally: it has an
    identifier and nothing stops the mapper. *)
Lemma outcome_inr (meal : dict) :
  outcome meal = inr tt ↔ is_Some (meal !! str "idMeal") ∧ stops meal = false.
Proof.
  destruct (meal !! str "idMeal") as [meal_id|] eqn:Hid.
  - rewrite (outcome_eq _ _ Hid). unfold meal_result, stops.
    destruct (raises meal "strCategory"), (raises meal "strArea");
      simpl; split; try done; try (by intros [_ ?]); by eauto.
  - unfold outcome. rewrite add_meal_to_graph_KeyError by done.
    split; [done | by intros [[? ?] _]].
Qed.

Lemma outcome_graph (meal : dict) (g : Graph) :
  (add_meal_to_graph meal g).1 = outcome meal.
Proof. by rewrite add_meal_to_graph_graph. Qed.

(** ** Missing identifier *)

(** C4, as the specification words it, fails: at the empty record the
    mapper does not end in an exception of a class [MissingIdentifier]. *)
Lemma missing_identifier_not_raised :
  ¬ (∀ meal : dict, meal !! str "idMeal" = None →
       ∃ arg, (add_meal_to_graph (G:=Graph) meal ∅).1
              = inl (Raise "MissingIdentifier" arg)).
Proof.
  intros Hclaim. destruct (Hclaim ∅) as [arg Harg]; [done|].
  rewrite add_meal_to_graph_KeyError in Harg by done. discriminate Harg.
Qed.

(** C4, amended: a record without the key [idMeal] makes the mapper fail
    with the [KeyError] of the lookup [meal["idMeal"]], its first
    statement, and the store is left as it was: no triple is added. *)
Theorem missing_identifier_KeyError (meal : dict) (g : Graph) :
  meal !! str "idMeal" = None →
  add_meal_to_graph meal g = (inl (KeyError (str "idMeal")), g).
Proof. apply add_meal_to_graph_KeyError. Qed.

Lemma missing_identifier_KeyError_witness :
  add_meal_to_graph (G:=Graph) {[ str "strMeal" := PStr (str "Beef Stew") ]} ∅
  = (inl (KeyError (str "idMeal")), ∅).
Proof. apply missing_identifier_KeyError. reflexivity. Defined.

(** ** The worked example *)

Lemma beef_stew_id : beef_stew !! str "idMeal" = Some (PStr (str "52874")).
Proof. reflexivity. Qed.

Lemma beef_stew_emitted : emitted beef_stew = beef_stew_triples.
Proof. by vm_compute. Qed.

Lemma beef_stew_NoDup : NoDup beef_stew_triples.
Proof. apply (bool_decide_unpack _). by vm_compute. Qed.

Lemma beef_stew_store :
  add_meal_to_graph (G:=Graph) beef_stew ∅
  = (inr tt, list_to_set beef_stew_triples).
Proof.
  rewrite add_meal_to_graph_graph, beef_stew_emitted.
  by rewrite (left_id_L ∅ (∪)).
Qed.

Lemma beef_stew_size :
  size (add_meal_to_graph (G:=Graph) beef_stew ∅).2 = 12%nat.
Proof.
  rewrite beef_stew_store.
  exact (size_list_to_set (C:=Graph) _ beef_stew_NoDup).
Qed.

(** C1, as stated, fails: the example record does not yield 9 triples,
    neither as calls of [g.add] nor as members of the store. *)
Lemma beef_stew_not_nine :
  length (emitted beef_stew) ≠ 9%nat
  ∧ size (add_meal_to_graph (G:=Graph) beef_stew ∅).2 ≠ 9%nat.
Proof. rewrite beef_stew_size, beef_stew_emitted. by split. Qed.

(** C1, amended: mapping the example record into an empty store succeeds
    and produces exactly the 12 triples the claim enumerates (the Meal
    type triple, the hasName triple, type, label and relation for the
    Category and for the Cuisine, and type, name, measure and relation for
    the one Ingredient), all different, so the store holds 12 triples. *)
Theorem beef_stew_twelve :
  add_meal_to_graph (G:=Graph) beef_stew ∅
    = (inr tt, list_to_set beef_stew_triples)
  ∧ emitted beef_stew = beef_stew_triples
  ∧ NoDup beef_stew_triples
  ∧ length beef_stew_triples = 12%nat
  ∧ size (add_meal_to_graph (G:=Graph) beef_stew ∅).2 = 12%nat.
Proof.
  split; [apply beef_stew_store|].
  split; [apply beef_stew_emitted|].
  split; [apply beef_stew_NoDup|].
  split; [reflexivity | apply beef_stew_size].
Qed.

(** ** Idempotence *)

(** C2: mapping a record twice in a row leaves the store exactly as
    mapping it once does, from any store; the outcome is the same too. *)
Theorem add_meal_twice (meal : dict) (g : Graph) :
  add_meals [meal; meal] g = add_meals [meal] g.
Proof.
  unfold add_meals. cbn [for_]. unfold mbind, M_bind.
  rewrite (add_meal_to_graph_graph meal g).
  destruct (outcome meal) as [e|[]] eqn:Ho; [done|].
  rewrite add_meal_to_graph_graph, Ho.
  by rewrite <- (assoc_L (∪)), (idemp_L (∪)).
Qed.

(** ** The Meal type triple *)

Lemma for_truthy_falsy v f : truthy v = false → for_truthy v f = [].
Proof. destruct v as [|s]; simpl; [done|]. by intros ->. Qed.


Lemma bind_nil {A B} (f : A → list B) (l : list A) :
  Forall (λ x, f x = []) l → l ≫= f = [].
Proof.
  induction 1 as [|x l Hx _ IH]; [done|]. by rewrite bind_cons, Hx, IH.
Qed.

Lemma guard_nil (stop : bool) : guard stop [] = [].
Proof. by destruct stop. Qed.

Lemma elem_of_guard (t : triple) (stop : bool) (L : list triple) :
  t ∈ guard stop L ↔ stop = false ∧ t ∈ L.
Proof.
  destruct stop; simpl; [|naive_solver].
  split; [by intros ?%elem_of_nil | by intros [? _]].
Qed.

Lemma Forall_guard (P : triple → Prop) (stop : bool) (L : list triple) :
  Forall P L → Forall P (guard stop L).
Proof. destruct stop; [by constructor | done]. Qed.

Lemma raises_falsy (meal : dict) (key : string) :
  truthy (get meal (str key)) = false → raises meal key = false.
Proof.
  unfold raises. destruct (get meal (str key)) as [|v]; [done|].
  simpl. by intros ->.
Qed.

Lemma raises_truthy (meal : dict) (key : string) (v : pystr) :
  get meal (str key) = PStr v → truth v = true →
  raises meal key = negb (encodable (normalized v)).
Proof. unfold raises. by intros -> ->. Qed.

(** C10: for a record with an identifier the first triple added is
    (Meal, rdf:type, recipe:Meal), whatever the other fields hold; when
    every optional field is absent, null or empty it is the only one, and
    the store built from it alone holds just that triple. *)
Theorem meal_type_triple_first (meal : dict) (meal_id : pyval) :
  meal !! str "idMeal" = Some meal_id →
  let t := (term_of MEAL meal_id, RDF_type, term RECIPE (str "Meal")) in
  head (emitted meal) = Some t
  ∧ (Forall (λ key, truthy (get meal key) = false) optional_fields →
     emitted meal = [t]
     ∧ add_meal_to_graph (G:=Graph) meal ∅ = (inr tt, {[ t ]})).
Proof.
  intros Hid t. split.
  { by rewrite (emitted_eq _ _ Hid). }
  intros Hopt. assert (Hem : emitted meal = [t]).
  { rewrite (emitted_eq _ _ Hid). unfold meal_triples, optional_fields in *.
    apply Forall_app in Hopt as [Hsix Hing].
    cbn [fmap list_fmap] in Hsix.
    repeat (apply Forall_cons in Hsix as [? Hsix]).
    unfold scalar_triples, entity_triples.
    rewrite !for_truthy_falsy by done.
    rewrite bind_nil; [by rewrite !guard_nil|].
    apply Forall_fmap in Hing. eapply Forall_impl; [exact Hing|].
    intros i Hi. unfold slot_triples. by apply for_truthy_falsy. }
  split; [done|].
  assert (Ho : outcome meal = inr tt).
  { apply outcome_inr. split; [by eexists|].
    unfold optional_fields in Hopt. apply Forall_app in Hopt as [Hsix _].
    cbn [fmap list_fmap] in Hsix.
    repeat (apply Forall_cons in Hsix as [? Hsix]).
    unfold stops. by rewrite !raises_falsy. }
  rewrite add_meal_to_graph_graph, Ho, Hem. simpl.
  by rewrite (left_id_L ∅ (∪)), (right_id_L ∅ (∪)).
Qed.

Lemma meal_type_triple_first_witness :
  let meal : dict := {[ str "idMeal" := PStr (str "52874");
                        str "strYoutube" := PStr [] ]} in
  let t := (URIRef (str "http://example.org/meal/52874"), RDF_type,
            URIRef (str "http://example.org/recipe/Meal")) in
  head (emitted meal) = Some t
  ∧ emitted meal = [t]
  ∧ add_meal_to_graph (G:=Graph) meal ∅ = (inr tt, {[ t ]}).
Proof.
  intros meal t.
  destruct (meal_type_triple_first meal (PStr (str "52874"))) as [H1 H2].
  { reflexivity. }
  split; [exact H1|]. apply H2.
  apply (bool_decide_unpack _). vm_compute. exact I.
Defined.

(** ** Ingredient identity *)

Lemma digits_no_underscore d : UNDERSCORE ∉ digits d.
Proof.
  induction d; simpl; [apply not_elem_of_nil|..];
    (apply not_elem_of_cons; split; [by vm_compute | done]).
Qed.

Lemma digits_inj d1 d2 : digits d1 = digits d2 → d1 = d2.
Proof.
  revert d2. induction d1 as [|d1 IH|d1 IH|d1 IH|d1 IH|d1 IH|d1 IH
                              |d1 IH|d1 IH|d1 IH|d1 IH];
    intros [] E; simpl in E; try discriminate E; try reflexivity;
    injection E as E; f_equal; by apply IH.
Qed.

Lemma str_of_nat_inj i j : str_of_nat i = str_of_nat j → i = j.
Proof. intros E. by apply Unsigned.to_uint_inj, digits_inj. Qed.

(** Two strings that agree up to and including the first occurrence of a
    separator agree part by part. *)
Lemma first_separator_inj (c : N) (a b p q : pystr) :
  c ∉ a → c ∉ b → a ++ c :: p = b ++ c :: q → a = b ∧ p = q.
Proof.
  revert b. induction a as [|x a IH]; intros [|y b] Ha Hb E; simpl in E.
  - by injection E.
  - injection E as -> _. by apply not_elem_of_cons in Hb as [[] _].
  - injection E as -> _. by apply not_elem_of_cons in Ha as [[] _].
  - injection E as -> E.
    apply not_elem_of_cons in Ha as [_ Ha].
    apply not_elem_of_cons in Hb as [_ Hb].
    destruct (IH b Ha Hb E) as [-> ->]. done.
Qed.

(** The same from the right: what follows the last separator, and what
    precedes it, are determined. *)
Lemma last_separator_inj (c : N) (x y d e : pystr) :
  c ∉ d → c ∉ e → x ++ c :: d = y ++ c :: e → x = y ∧ d = e.
Proof.
  intros Hd He E. apply (f_equal reverse) in E.
  rewrite !reverse_app, !reverse_cons, <- !app_assoc in E.
  change ([c] ++ reverse x) with (c :: reverse x) in E.
  change ([c] ++ reverse y) with (c :: reverse y) in E.
  apply first_separator_inj in E as [E1 E2];
    [|by rewrite elem_of_reverse..].
  split; by apply (inj reverse).
Qed.

Lemma URIRef_inj (a b : pystr) : URIRef a = URIRef b → a = b.
Proof. by intros [= ->]. Qed.

Lemma separator_shape (c : N) (a s d : pystr) :
  a ++ (s ++ [c]) ++ d = (a ++ s) ++ c :: d.
Proof. by rewrite <- !app_assoc. Qed.

Lemma ingredient_uri_inj (id1 id2 : pystr) (i j : nat) :
  ingredient_uri (PStr id1) i = ingredient_uri (PStr id2) j →
  id1 = id2 ∧ i = j.
Proof.
  unfold ingredient_uri, format, str_of_nat. intros E.
  apply URIRef_inj, app_inv_head in E.
  change (str "_ingredient_") with (str "_ingredient" ++ [UNDERSCORE]) in E.
  rewrite !separator_shape in E.
  apply last_separator_inj in E as [E1 E2];
    [|apply digits_no_underscore..].
  apply app_inv_tail in E1. split; [done|].
  by apply Unsigned.to_uint_inj, digits_inj.
Qed.

(** ** Membership in the closed form *)

Lemma elem_of_for_truthy (t : triple) v f :
  t ∈ for_truthy v f ↔ ∃ s, v = PStr s ∧ truth s = true ∧ t ∈ f s.
Proof.
  destruct v as [|s]; simpl.
  - split; [by intros ?%elem_of_nil | by intros (? & ? & _)].
  - destruct (truth s) eqn:Hs.
    + split; [by exists s | by intros (? & [= <-] & _ & ?)].
    + split; [by intros ?%elem_of_nil | intros (? & [= <-] & ? & _); congruence].
Qed.

Lemma truth_strip (s : pystr) : truth (strip s) = true → truth s = true.
Proof. by destruct s. Qed.

Lemma elem_of_slot_triples (t : triple) meal meal_id meal_uri i :
  t ∈ slot_triples meal meal_id meal_uri i ↔
  ∃ name, get meal (str "strIngredient" ++ str_of_nat i) = PStr name
    ∧ truth (strip name) = true
    ∧ (t = (ingredient_uri meal_id i, RDF_type, term RECIPE (str "Ingredient"))
       ∨ t = (ingredient_uri meal_id i, term RECIPE (str "ingredientName"),
              Literal (strip name))
       ∨ (∃ measure,
            get meal (str "strMeasure" ++ str_of_nat i) = PStr measure
            ∧ truth (strip measure) = true
            ∧ t = (ingredient_uri meal_id i,
                   term RECIPE (str "ingredientMeasure"),
                   Literal (strip measure)))
       ∨ t = (meal_uri, term RECIPE (str "hasIngredient"),
              ingredient_uri meal_id i)).
Proof.
  unfold slot_triples, measure_triples. rewrite elem_of_for_truthy.
  split.
  - intros (name & Hname & _ & Ht). exists name. split; [done|].
    destruct (truth (strip name)); [|by apply elem_of_nil in Ht].
    split; [done|].
    rewrite !elem_of_app, elem_of_for_truthy in Ht.
    destruct Ht as [Ht|[(measure & Hm & _ & Ht)|Ht]].
    + apply elem_of_cons in Ht as [->|Ht]; [by left|].
      apply list_elem_of_singleton in Ht as ->. by right; left.
    + destruct (truth (strip measure)) eqn:Hs; [|by apply elem_of_nil in Ht].
      apply list_elem_of_singleton in Ht. right; right; left. by exists measure.
    + apply list_elem_of_singleton in Ht. by right; right; right.
  - intros (name & Hname & Hs & Ht). exists name.
    split; [done|]. split; [by apply truth_strip|]. rewrite Hs.
    rewrite !elem_of_app, elem_of_for_truthy.
    destruct Ht as [-> | [-> | [(measure & Hm & Hms & ->) | ->]]].
    + left. apply elem_of_cons. by left.
    + left. apply elem_of_cons. right. by apply list_elem_of_singleton.
    + right; left. exists measure. split; [done|].
      split; [by apply truth_strip|]. rewrite Hms.
      by apply list_elem_of_singleton.
    + right; right. by apply list_elem_of_singleton.
Qed.

Lemma elem_of_slots (t : triple) meal meal_id :
  t ∈ seq 1 20 ≫= slot_triples meal meal_id (term_of MEAL meal_id) ↔
  ∃ i, (1 ≤ i ≤ 20)%nat
       ∧ t ∈ slot_triples meal meal_id (term_of MEAL meal_id) i.
Proof.
  rewrite list_elem_of_bind. split.
  - intros (i & Ht & Hi). exists i. apply elem_of_seq in Hi. split; [lia|done].
  - intros (i & Hi & Ht). exists i. split; [done|]. apply elem_of_seq. lia.
Qed.

Lemma slot_in_meal_triples (t : triple) meal meal_id i :
  stops meal = false →
  (1 ≤ i ≤ 20)%nat →
  t ∈ slot_triples meal meal_id (term_of MEAL meal_id) i →
  t ∈ meal_triples meal meal_id.
Proof.
  intros Hstop Hi Ht. unfold meal_triples. cbv zeta.
  rewrite !elem_of_app. do 7 right. apply elem_of_guard. split; [done|].
  apply elem_of_slots. by exists i.
Qed.

(** C7: an Ingredient entity belongs to one meal and one slot. Take two
    records with string identifiers and a slot of each, both slots with a
    name that is not blank; when the identifiers differ, or the slot
    numbers do, the two Ingredient URIs the mapper builds for them are
    distinct, whatever the names are (the same name included); and these
    are the entities the mapper types for a record it maps to the end. *)
Theorem ingredient_never_shared (m1 m2 : dict) (id1 id2 n1 n2 : pystr)
    (i j : nat) :
  m1 !! str "idMeal" = Some (PStr id1) →
  m2 !! str "idMeal" = Some (PStr id2) →
  (1 ≤ i ≤ 20)%nat → (1 ≤ j ≤ 20)%nat →
  get m1 (str "strIngredient" ++ str_of_nat i) = PStr n1 →
  get m2 (str "strIngredient" ++ str_of_nat j) = PStr n2 →
  truth (strip n1) = true → truth (strip n2) = true →
  id1 ≠ id2 ∨ i ≠ j →
  let u1 := ingredient_uri (PStr id1) i in
  let u2 := ingredient_uri (PStr id2) j in
  u1 ≠ u2
  ∧ (outcome m1 = inr tt →
     (u1, RDF_type, term RECIPE (str "Ingredient")) ∈ emitted m1)
  ∧ (outcome m2 = inr tt →
     (u2, RDF_type, term RECIPE (str "Ingredient")) ∈ emitted m2).
Proof.
  intros Hid1 Hid2 Hi Hj Hn1 Hn2 Hs1 Hs2 Hne u1 u2.
  rewrite (emitted_eq _ _ Hid1), (emitted_eq _ _ Hid2).
  split; [|split].
  - intros E. apply ingredient_uri_inj in E as [-> ->]. by destruct Hne.
  - intros [_ Hstop]%outcome_inr.
    apply (slot_in_meal_triples _ _ _ i Hstop Hi), elem_of_slot_triples.
    exists n1. by eauto.
  - intros [_ Hstop]%outcome_inr.
    apply (slot_in_meal_triples _ _ _ j Hstop Hj), elem_of_slot_triples.
    exists n2. by eauto.
Qed.

Lemma ingredient_never_shared_witness :
  ingredient_uri (PStr (str "52944")) 1
    ≠ ingredient_uri (PStr (str "52788")) 1
  ∧ (URIRef (str "http://example.org/ingredient/52944_ingredient_1"),
     RDF_type, term RECIPE (str "Ingredient")) ∈ emitted salted_fish
  ∧ (URIRef (str "http://example.org/ingredient/52788_ingredient_1"),
     RDF_type, term RECIPE (str "Ingredient")) ∈ emitted salted_caramel.
Proof.
  destruct (ingredient_never_shared salted_fish salted_caramel
              (str "52944") (str "52788") (str "salt") (str "salt") 1 1)
    as (Hne & H1 & H2); try reflexivity; try lia.
  { left. vm_compute. discriminate. }
  split; [exact Hne|].
  split; [apply H1 | apply H2]; reflexivity.
Defined.

(** ** The ingredient slots *)

Lemma ingredient_ne_meal (x y : pystr) : INGREDIENT ++ x ≠ MEAL ++ y.
Proof. intros E. vm_compute in E. discriminate E. Qed.

Lemma ingredient_ne_recipe (x y : pystr) : INGREDIENT ++ x ≠ RECIPE ++ y.
Proof. intros E. vm_compute in E. discriminate E. Qed.

Lemma ingredient_ne_category (x y : pystr) : INGREDIENT ++ x ≠ CATEGORY ++ y.
Proof. intros E. vm_compute in E. discriminate E. Qed.

Lemma ingredient_ne_cuisine (x y : pystr) : INGREDIENT ++ x ≠ CUISINE ++ y.
Proof. intros E. vm_compute in E. discriminate E. Qed.

Lemma category_ne_cuisine (x y : pystr) : CATEGORY ++ x ≠ CUISINE ++ y.
Proof. intros E. vm_compute in E. discriminate E. Qed.

Lemma elsewhere_literal l : elsewhere (Literal l).
Proof. by intros x. Qed.

Lemma elsewhere_meal key : elsewhere (term_of MEAL key).
Proof. intros x E%URIRef_inj. by apply eq_sym, ingredient_ne_meal in E. Qed.

Lemma elsewhere_recipe name : elsewhere (term RECIPE name).
Proof. intros x E%URIRef_inj. by apply eq_sym, ingredient_ne_recipe in E. Qed.

Lemma elsewhere_category name : elsewhere (term CATEGORY name).
Proof. intros x E%URIRef_inj. by apply eq_sym, ingredient_ne_category in E. Qed.

Lemma elsewhere_cuisine name : elsewhere (term CUISINE name).
Proof. intros x E%URIRef_inj. by apply eq_sym, ingredient_ne_cuisine in E. Qed.

Lemma not_about_ingredient s p o :
  elsewhere s → elsewhere o → ¬ about_ingredient (s, p, o).
Proof. intros Hs Ho [x [E|E]]; simpl in E; [by apply (Hs x) | by apply (Ho x)]. Qed.

Create HintDb elsewhere.
#[local] Hint Resolve elsewhere_literal elsewhere_meal elsewhere_recipe
  elsewhere_category elsewhere_cuisine not_about_ingredient : elsewhere.

Lemma Forall_for_truthy (P : triple → Prop) v f :
  (∀ s, Forall P (f s)) → Forall P (for_truthy v f).
Proof.
  intros Hf. destruct v as [|s]; simpl; [done|]. by destruct (truth s).
Qed.
















(** A record with an identifier whose category cannot be encoded, and
    whose first ingredient slot holds salt. *)
Lemma surrogate_category_id :
  surrogate_category !! str "idMeal" = Some (PStr (str "52874")).
Proof. reflexivity. Qed.

(** C6, as stated, fails: for the record above the mapper raises
    [UnicodeEncodeError] at the category, after the Meal type triple; the
    ingredient loop is never reached, so the slot that holds salt gets no
    triple at all. *)
Lemma slots_not_reached :
  let t := (term_of MEAL (PStr (str "52874")), RDF_type,
            term RECIPE (str "Meal")) in
  trimmed (get surrogate_category (str "strIngredient1"))
    = Some (str "salt")
  ∧ add_meal_to_graph (G:=Graph) surrogate_category ∅
    = (inl (UnicodeEncodeError [0xD800]), {[ t ]})
  ∧ emitted surrogate_category = [t]
  ∧ ¬ (∃ front,
         emitted surrogate_category
         = front ++ (seq 1 20 ≫= ingredient_spec surrogate_category
                                   (PStr (str "52874")))).
Proof.
  intros t. assert (Hem : emitted surrogate_category = [t]) by reflexivity.
  split; [reflexivity|]. split; [|split; [done|]].
  - rewrite add_meal_to_graph_graph, Hem. simpl.
    by rewrite (left_id_L ∅ (∪)), (right_id_L ∅ (∪)).
  - rewrite Hem. intros [front E]. apply (f_equal length) in E.
    rewrite length_app in E.
    assert (Hlen : length (seq 1 20 ≫= ingredient_spec surrogate_category
                                        (PStr (str "52874"))) = 3%nat)
      by reflexivity.
    rewrite Hlen in E. cbn [length] in E. lia.
Qed.



(** ** The scalar fields *)

Lemma filter_predicate_nil (p : node) (ps : list node) (L : list triple) :
  Forall (λ t, predicate t ∈ ps) L → p ∉ ps →
  filter (λ t, predicate t = p) L = [].
Proof.
  intros HL Hp. induction HL as [|t L Ht _ IH]; [done|].
  rewrite filter_cons_False; [done|]. by intros <-.
Qed.

Lemma filter_predicate_all (p : node) (L : list triple) :
  Forall (λ t, predicate t = p) L → filter (λ t, predicate t = p) L = L.
Proof.
  induction 1 as [|t L Ht _ IH]; [done|].
  by rewrite filter_cons_True, IH.
Qed.

Lemma scalar_predicate meal meal_uri key property :
  Forall (λ t, predicate t = term RECIPE (str property))
    (scalar_triples meal meal_uri key property).
Proof. apply Forall_for_truthy. intros v. by repeat constructor. Qed.

Lemma entity_predicates meal meal_uri key ns class relation :
  Forall (λ t, predicate t
               ∈ [RDF_type; RDFS_label; term RECIPE (str relation)])
    (entity_triples meal meal_uri key ns class relation).
Proof.
  apply Forall_for_truthy. intros v.
  repeat constructor; simpl; set_solver.
Qed.

Lemma slot_predicates meal meal_id meal_uri :
  Forall (λ t, predicate t
               ∈ [RDF_type; term RECIPE (str "ingredientName");
                  term RECIPE (str "ingredientMeasure");
                  term RECIPE (str "hasIngredient")])
    (seq 1 20 ≫= slot_triples meal meal_id meal_uri).
Proof.
  apply Forall_forall. intros t Ht.
  apply list_elem_of_bind in Ht as (i & Ht & _).
  apply elem_of_slot_triples in Ht
    as (name & _ & _ & [-> | [-> | [(measure & _ & _ & ->) | ->]]]);
    simpl; set_solver.
Qed.

(** Decide a closed proposition by evaluation. *)
Ltac closed_decide := apply (bool_decide_unpack _); by vm_compute.

(** Filter the closed form by the property of one scalar field: the block
    of that field stays, every other block goes. *)
Ltac filter_scalar :=
  rewrite (filter_predicate_all _ _ (scalar_predicate _ _ _ _));
  rewrite (filter_predicate_nil _ [RDF_type] [_])
    by first [by repeat constructor | closed_decide];
  rewrite (filter_predicate_nil _ _ _
             (Forall_guard _ _ _ (slot_predicates _ _ _)))
    by closed_decide;
  rewrite !(filter_predicate_nil _ _ _
              (Forall_guard _ _ _ (entity_predicates _ _ _ _ _ _)))
    by closed_decide;
  rewrite !(filter_predicate_nil _ _ _
              (Forall_impl _ _ _ (scalar_predicate _ _ _ _)
                 (λ t, proj2 (list_elem_of_singleton (predicate t) _))))
    by closed_decide;
  rewrite ?app_nil_r.

(** C5: for a record with an identifier and each scalar field, the triples
    added under the field's property are exactly one, (Meal, property,
    Literal(value)), when the field holds a non-empty string, and none
    when it is missing, null or empty; so no triple at all carries the
    property of a missing field (for [strYoutube]: no hasYoutubeLink). *)
Theorem scalar_field_triples (meal : dict) (meal_id : pyval)
    (key property : string) :
  meal !! str "idMeal" = Some meal_id →
  (key, property) ∈ scalar_fields →
  filter (λ t, predicate t = term RECIPE (str property)) (emitted meal)
  = match get meal (str key) with
    | PStr value =>
        if truth value
        then [(term_of MEAL meal_id, term RECIPE (str property),
               Literal value)]
        else []
    | PNone => []
    end
  ∧ (meal !! str key = None →
     ∀ s o, (s, term RECIPE (str property), o) ∉ emitted meal).
Proof.
  intros Hid Hfield.
  assert (Hfilter :
    filter (λ t, predicate t = term RECIPE (str property)) (emitted meal)
    = scalar_triples meal (term_of MEAL meal_id) key property).
  { rewrite (emitted_eq _ _ Hid). unfold meal_triples. cbv zeta.
    rewrite !filter_app. unfold scalar_fields in Hfield.
    repeat (apply elem_of_cons in Hfield as [[= -> ->]|Hfield];
            [by filter_scalar|]).
    by apply elem_of_nil in Hfield. }
  split; [exact Hfilter|].
  intros Hnone s o Hin.
  assert (Hmem : (s, term RECIPE (str property), o)
                 ∈ filter (λ t, predicate t = term RECIPE (str property))
                          (emitted meal))
    by (by apply list_elem_of_filter).
  rewrite Hfilter in Hmem. unfold scalar_triples, get in Hmem.
  rewrite Hnone in Hmem. by apply elem_of_nil in Hmem.
Qed.

Lemma scalar_field_triples_witness :
  filter (λ t, predicate t = term RECIPE (str "hasName")) (emitted beef_stew)
  = [(URIRef (str "http://example.org/meal/52874"),
      term RECIPE (str "hasName"), Literal (str "Beef Stew"))]
  ∧ filter (λ t, predicate t = term RECIPE (str "hasYoutubeLink"))
           (emitted beef_stew) = []
  ∧ ∀ s o, (s, term RECIPE (str "hasYoutubeLink"), o) ∉ emitted beef_stew.
Proof.
  destruct (scalar_field_triples beef_stew (PStr (str "52874"))
              "strMeal" "hasName") as [Hname _];
    [reflexivity | closed_decide |].
  destruct (scalar_field_triples beef_stew (PStr (str "52874"))
              "strYoutube" "hasYoutubeLink") as [Hnone Hnot];
    [reflexivity | closed_decide |].
  split; [exact Hname|]. split; [exact Hnone|]. apply Hnot. reflexivity.
Defined.

(** ** Several records in one store *)

(** The loop of [main] on a graph: it ends as the first record that
    raises does, and the graph has gained the triples of the records up
    to and including that one. *)
Lemma add_meals_graph (meals : list dict) (g : Graph) :
  add_meals meals g
  = (loop_outcome meals, g ∪ list_to_set (processed meals ≫= emitted)).
Proof.
  revert g. induction meals as [|meal meals IH]; intros g.
  - simpl. by rewrite (right_id_L ∅ (∪)).
  - unfold add_meals in *. cbn [for_ loop_outcome processed].
    unfold mbind at 1, M_bind. rewrite add_meal_to_graph_graph.
    destruct (outcome meal) as [e|[]].
    + by rewrite bind_cons, app_nil_r.
    + rewrite IH, bind_cons, list_to_set_app_L. by rewrite (assoc_L (∪)).
Qed.

Lemma loop_outcome_inr (meals : list dict) :
  loop_outcome meals = inr tt ↔ Forall (λ meal, outcome meal = inr tt) meals.
Proof.
  induction meals as [|meal meals IH]; simpl; [by split|].
  rewrite Forall_cons, <- IH.
  destruct (outcome meal) as [e|[]]; naive_solver.
Qed.

Lemma processed_all (meals : list dict) :
  loop_outcome meals = inr tt → processed meals = meals.
Proof.
  induction meals as [|meal meals IH]; simpl; [done|].
  destruct (outcome meal) as [e|[]]; [done|]. by intros ->%IH.
Qed.

Lemma processed_sub (meals : list dict) (meal : dict) :
  meal ∈ processed meals → meal ∈ meals.
Proof.
  induction meals as [|m meals IH]; simpl; [done|].
  intros [->|Hin]%elem_of_cons; [by left|]. right.
  destruct (outcome m); [by apply elem_of_nil in Hin | by apply IH].
Qed.

(** The loop returns normally when every record is mapped to its end:
    each has an identifier and nothing stops the mapper. *)
Lemma add_meals_returns (meals : list dict) (g : Graph) :
  (add_meals meals g).1 = inr tt ↔
  Forall (λ meal, outcome meal = inr tt) meals.
Proof. by rewrite add_meals_graph, <- loop_outcome_inr. Qed.

Lemma elem_of_add_meals (meals : list dict) (t : triple) :
  t ∈ (add_meals (G:=Graph) meals ∅).2 ↔
  ∃ meal, meal ∈ processed meals ∧ t ∈ emitted meal.
Proof.
  rewrite add_meals_graph. simpl.
  rewrite (left_id_L ∅ (∪)), elem_of_list_to_set, list_elem_of_bind.
  naive_solver.
Qed.

(** Every triple of a record is in the store when the loop returned
    normally. *)
Lemma mapped_triple_in_store (meals : list dict) (meal : dict) (t : triple) :
  (add_meals (G:=Graph) meals ∅).1 = inr tt →
  meal ∈ meals → t ∈ emitted meal →
  t ∈ (add_meals (G:=Graph) meals ∅).2.
Proof.
  intros Hrun Hm Ht. apply elem_of_add_meals. exists meal. split; [|done].
  rewrite add_meals_graph in Hrun. by rewrite processed_all.
Qed.

Lemma entity_in_meal_triples (t : triple) meal meal_id key ns class relation :
  (key, ns, class, relation) ∈ entity_kinds →
  raises meal key = false → raises meal "strCategory" = false →
  t ∈ entity_triples meal (term_of MEAL meal_id) key ns class relation →
  t ∈ meal_triples meal meal_id.
Proof.
  intros Hkind Hkey Hcat Ht. unfold meal_triples, stops. cbv zeta.
  rewrite !elem_of_app, !elem_of_guard.
  unfold entity_kinds in Hkind.
  apply elem_of_cons in Hkind as [[= -> -> -> ->]|Hkind];
    [by do 5 right; left|].
  apply list_elem_of_singleton in Hkind as [= -> -> -> ->].
  do 6 right; left. by rewrite Hkey, Hcat.
Qed.

Lemma elem_of_entity_triples (t : triple) meal meal_uri key ns class relation :
  t ∈ entity_triples meal meal_uri key ns class relation ↔
  ∃ v, get meal (str key) = PStr v ∧ truth v = true
       ∧ (t = (term ns (safe_name v), RDF_type, term RECIPE (str class))
          ∨ t = (term ns (safe_name v), RDFS_label, Literal v)
          ∨ t = (meal_uri, term RECIPE (str relation),
                 term ns (safe_name v))).
Proof.
  unfold entity_triples. rewrite elem_of_for_truthy. cbv zeta.
  apply exist_proper. intros v.
  rewrite !elem_of_cons, elem_of_nil. naive_solver.
Qed.

Lemma stops_false (meal : dict) :
  stops meal = false ↔
  raises meal "strCategory" = false ∧ raises meal "strArea" = false.
Proof. unfold stops. apply orb_false_iff. Qed.

Lemma not_raised (meal : dict) (key : string) (ns : pystr)
    (class relation : string) :
  (key, ns, class, relation) ∈ entity_kinds →
  stops meal = false →
  raises meal key = false ∧ raises meal "strCategory" = false.
Proof.
  intros Hkind [Hc Ha]%stops_false. unfold entity_kinds in Hkind.
  apply elem_of_cons in Hkind as [[= -> -> -> ->]|Hkind]; [done|].
  by apply list_elem_of_singleton in Hkind as [= -> -> -> ->].
Qed.

(** The entity of a non-empty field of a record that is mapped to its
    end: its identifier, and its three triples among those of the
    record. *)
Lemma mapped_entity (meal : dict) (meal_id : pyval) (key : string)
    (ns : pystr) (class relation : string) (v : pystr) :
  meal !! str "idMeal" = Some meal_id → outcome meal = inr tt →
  (key, ns, class, relation) ∈ entity_kinds →
  get meal (str key) = PStr v → truth v = true →
  let e := term ns (safe_name v) in
  safe_value v = inr (safe_name v)
  ∧ create_uri_ref ns (PStr v) = inr (Some e)
  ∧ (e, RDF_type, term RECIPE (str class)) ∈ emitted meal
  ∧ (e, RDFS_label, Literal v) ∈ emitted meal
  ∧ (term_of MEAL meal_id, term RECIPE (str relation), e) ∈ emitted meal.
Proof.
  intros Hid [_ Hstop]%outcome_inr Hkind Hv Htv e.
  destruct (not_raised _ _ _ _ _ Hkind Hstop) as [Hkey Hcat].
  assert (Henc : encodable (normalized v) = true).
  { rewrite (raises_truthy _ _ _ Hv Htv) in Hkey.
    by apply negb_false_iff in Hkey. }
  split; [by rewrite safe_value_eq, Henc|].
  split; [by rewrite (create_uri_ref_eq _ _ Htv), Henc|].
  rewrite (emitted_eq _ _ Hid).
  repeat split;
    (eapply entity_in_meal_triples; [done..|]);
    apply elem_of_entity_triples; exists v; by eauto 6.
Qed.

(** ** Shared entities *)

(** C3: when the loop of [main] maps a list of records to its end, two of
    the records whose category fields (or whose area fields) are
    non-empty and normalize to the same [safe_value] refer to one and the
    same entity: [create_uri_ref] returns the same URI for both, that URI
    is typed with the class, and both meals are related to it. *)
Theorem same_identifier_same_entity (meals : list dict) (m1 m2 : dict)
    (id1 id2 : pyval) (key : string) (ns : pystr) (class relation : string)
    (s1 s2 : pystr) :
  (add_meals (G:=Graph) meals ∅).1 = inr tt →
  (key, ns, class, relation) ∈ entity_kinds →
  m1 ∈ meals → m2 ∈ meals →
  m1 !! str "idMeal" = Some id1 → m2 !! str "idMeal" = Some id2 →
  get m1 (str key) = PStr s1 → get m2 (str key) = PStr s2 →
  truth s1 = true → truth s2 = true →
  safe_value s1 = safe_value s2 →
  let G := (add_meals (G:=Graph) meals ∅).2 in
  ∃ u e, safe_value s1 = inr u
       ∧ e = term ns u
       ∧ create_uri_ref ns (PStr s1) = inr (Some e)
       ∧ create_uri_ref ns (PStr s2) = inr (Some e)
       ∧ (e, RDF_type, term RECIPE (str class)) ∈ G
       ∧ (term_of MEAL id1, term RECIPE (str relation), e) ∈ G
       ∧ (term_of MEAL id2, term RECIPE (str relation), e) ∈ G.
Proof.
  intros Hrun Hkind Hm1 Hm2 Hid1 Hid2 Hs1 Hs2 Ht1 Ht2 Hsafe G.
  pose proof Hrun as Hall. apply add_meals_returns in Hall.
  rewrite Forall_forall in Hall.
  destruct (mapped_entity _ _ _ _ _ _ _ Hid1 (Hall _ Hm1) Hkind Hs1 Ht1)
    as (Hsv1 & Hu1 & Hty1 & _ & Hrel1).
  destruct (mapped_entity _ _ _ _ _ _ _ Hid2 (Hall _ Hm2) Hkind Hs2 Ht2)
    as (Hsv2 & Hu2 & _ & _ & Hrel2).
  assert (E : safe_name s2 = safe_name s1).
  { rewrite Hsv1, Hsv2 in Hsafe. by injection Hsafe. }
  rewrite E in Hu2, Hrel2.
  exists (safe_name s1), (term ns (safe_name s1)).
  split; [done|]. split; [done|]. split; [done|]. split; [done|].
  split; [exact (mapped_triple_in_store _ _ _ Hrun Hm1 Hty1)|].
  split; [exact (mapped_triple_in_store _ _ _ Hrun Hm1 Hrel1)|].
  exact (mapped_triple_in_store _ _ _ Hrun Hm2 Hrel2).
Qed.

Lemma same_identifier_same_entity_witness :
  let G := (add_meals (G:=Graph) [beef_stew; padded_italian] ∅).2 in
  safe_value (str "Italian") = inr (str "Italian")
  ∧ safe_value (str " Italian ") = inr (str "Italian")
  ∧ ∃ u e, safe_value (str "Italian") = inr u
       ∧ e = term CUISINE u
       ∧ create_uri_ref CUISINE (PStr (str "Italian")) = inr (Some e)
       ∧ create_uri_ref CUISINE (PStr (str " Italian ")) = inr (Some e)
       ∧ (e, RDF_type, term RECIPE (str "Cuisine")) ∈ G
       ∧ (term_of MEAL (PStr (str "52874")),
          term RECIPE (str "belongsToCuisine"), e) ∈ G
       ∧ (term_of MEAL (PStr (str "52982")),
          term RECIPE (str "belongsToCuisine"), e) ∈ G.
Proof.
  intros G. split; [reflexivity|]. split; [reflexivity|].
  apply (same_identifier_same_entity [beef_stew; padded_italian]
           beef_stew padded_italian (PStr (str "52874")) (PStr (str "52982"))
           "strArea" CUISINE "Cuisine" "belongsToCuisine"
           (str "Italian") (str " Italian "));
    try reflexivity.
  - apply elem_of_cons. right. apply list_elem_of_singleton. reflexivity.
  - apply elem_of_cons. left. reflexivity.
  - apply elem_of_cons. right. apply list_elem_of_singleton. reflexivity.
Defined.

(** ** What the type and label triples of a record are *)

(** Close a goal from an equation that evaluation refutes. *)
Ltac refute H := solve [vm_compute in H; discriminate H].

Ltac destruct_kind Hk :=
  unfold entity_kinds in Hk;
  apply elem_of_cons in Hk as [[= -> -> -> ->]|Hk];
    [|apply list_elem_of_singleton in Hk as [= -> -> -> ->]].

Lemma triple_inj (s p o s' p' o' : node) :
  (s, p, o) = (s', p', o') → s = s' ∧ p = p' ∧ o = o'.
Proof. by intros [= -> -> ->]. Qed.




(** ** Labels *)

(** C9, as stated, fails: the categories of the two records below differ
    only by the blanks around the second, yet after the loop the store
    holds no Category entity and no label at all, because [quote] cannot
    encode the category of the first record and the loop ends there. *)
Lemma surrogate_labels_lost :
  let c1 : pystr := [0xD800] in
  let c2 : pystr := [0x20; 0xD800; 0x20] in
  let G := (add_meals (G:=Graph) [surrogate_category; padded_surrogate] ∅).2 in
  get surrogate_category (str "strCategory") = PStr c1
  ∧ get padded_surrogate (str "strCategory") = PStr c2
  ∧ c1 ≠ c2 ∧ strip c1 = strip c2
  ∧ (add_meals (G:=Graph) [surrogate_category; padded_surrogate] ∅).1
    = inl (UnicodeEncodeError [0xD800])
  ∧ (∀ e, (e, RDF_type, term RECIPE (str "Category")) ∉ G)
  ∧ (∀ s o, (s, RDFS_label, o) ∉ G).
Proof.
  intros c1 c2 G.
  split; [reflexivity|]. split; [reflexivity|].
  split; [by vm_compute|]. split; [reflexivity|].
  assert (HG : ∀ t, t ∈ G →
    t = (term_of MEAL (PStr (str "52874")), RDF_type,
         term RECIPE (str "Meal"))).
  { intros t (meal & Hm & Ht)%elem_of_add_meals.
    assert (Hp : processed [surrogate_category; padded_surrogate]
                 = [surrogate_category]) by reflexivity.
    rewrite Hp in Hm. apply list_elem_of_singleton in Hm as ->.
    assert (Hem : emitted surrogate_category
                  = [(term_of MEAL (PStr (str "52874")), RDF_type,
                      term RECIPE (str "Meal"))]) by reflexivity.
    rewrite Hem in Ht. by apply list_elem_of_singleton in Ht. }
  split; [by rewrite add_meals_graph|]. split.
  - intros e He%HG. apply triple_inj in He as (_ & _ & He). refute He.
  - intros s o Hs%HG. apply triple_inj in Hs as (_ & Hs & _). refute Hs.
Qed.



(** ** [quote] loses nothing *)

Ltac Zify.zify_post_hook ::= Z.div_mod_to_equations.

Lemma divmod64 (a : N) : a = 64 * (a / 64) + a mod 64 ∧ a mod 64 < 64.
Proof.
  split; [apply N.div_mod; discriminate | apply N.mod_lt; discriminate].
Qed.

Lemma divmod16 (a : N) : a = 16 * (a / 16) + a mod 16 ∧ a mod 16 < 16.
Proof.
  split; [apply N.div_mod; discriminate | apply N.mod_lt; discriminate].
Qed.

Lemma div4096 (a : N) : a / 4096 = a / 64 / 64.
Proof. rewrite N.Div0.div_div. reflexivity. Qed.

Lemma div262144 (a : N) : a / 262144 = a / 64 / 64 / 64.
Proof. rewrite !N.Div0.div_div. reflexivity. Qed.

(** Bring in the three six-bit digits of a code point. *)
Ltac sextets a :=
  pose proof (divmod64 a); pose proof (divmod64 (a / 64));
  pose proof (divmod64 (a / 64 / 64)).

Lemma cons_eq_inv {A} (a b : A) (l k : list A) :
  a :: l = b :: k → a = b ∧ l = k.
Proof. by intros [= -> ->]. Qed.

(** Split an equation between two lists that start with conses. *)
Ltac uncons E :=
  cbn [app] in E;
  repeat (let H := fresh "Hb" in apply cons_eq_inv in E as [H E]).

Lemma scalar_bytes_range (c : N) :
  c < 0x110000 → Forall (λ b, b < 256) (scalar_bytes c).
Proof.
  intros Hc. unfold scalar_bytes. rewrite ?div262144, ?div4096. sextets c.
  destruct (N.ltb_spec c 0x80); [|destruct (N.ltb_spec c 0x800);
    [|destruct (N.ltb_spec c 0x10000)]];
    repeat constructor; lia.
Qed.

Lemma scalar_bytes_nonempty (c : N) : scalar_bytes c ≠ [].
Proof.
  unfold scalar_bytes.
  by destruct (c <? 0x80), (c <? 0x800), (c <? 0x10000).
Qed.

(** UTF-8 is a prefix code: the first character of an encoded text is
    determined, and so is the rest. *)
Lemma scalar_bytes_prefix (c1 c2 : N) (r1 r2 : list N) :
  c1 < 0x110000 → c2 < 0x110000 →
  scalar_bytes c1 ++ r1 = scalar_bytes c2 ++ r2 → c1 = c2 ∧ r1 = r2.
Proof.
  intros H1 H2. unfold scalar_bytes. rewrite ?div262144, ?div4096.
  sextets c1. sextets c2.
  destruct (N.ltb_spec c1 0x80); [|destruct (N.ltb_spec c1 0x800);
    [|destruct (N.ltb_spec c1 0x10000)]];
  (destruct (N.ltb_spec c2 0x80); [|destruct (N.ltb_spec c2 0x800);
    [|destruct (N.ltb_spec c2 0x10000)]]);
  intros E; uncons E; first [split; [lia | exact E] | exfalso; lia].
Qed.

Lemma hex_digit_inj (d e : N) :
  d < 16 → e < 16 → hex_digit d = hex_digit e → d = e.
Proof.
  unfold hex_digit. intros Hd He.
  destruct (N.ltb_spec d 10), (N.ltb_spec e 10); lia.
Qed.

Lemma quote_byte_nonempty (b : N) : quote_byte b ≠ [].
Proof. unfold quote_byte. by destruct (is_safe b). Qed.

(** Percent-encoding is a prefix code as well: ["%"] is never safe. *)
Lemma quote_byte_prefix (b1 b2 : N) (r1 r2 : pystr) :
  b1 < 256 → b2 < 256 →
  quote_byte b1 ++ r1 = quote_byte b2 ++ r2 → b1 = b2 ∧ r1 = r2.
Proof.
  intros H1 H2. unfold quote_byte.
  destruct (is_safe b1) eqn:Hs1, (is_safe b2) eqn:Hs2; intros E; uncons E.
  - by split.
  - subst b1. discriminate Hs1.
  - subst b2. discriminate Hs2.
  - pose proof (divmod16 b1). pose proof (divmod16 b2).
    apply hex_digit_inj in Hb0; [|lia..].
    apply hex_digit_inj in Hb1; [|lia..].
    split; [lia | exact E].
Qed.

Lemma bind_prefix_inj {A B} (f : A → list B) (P : A → Prop) :
  (∀ a b r1 r2, P a → P b → f a ++ r1 = f b ++ r2 → a = b ∧ r1 = r2) →
  (∀ a, f a ≠ []) →
  ∀ l1 l2, Forall P l1 → Forall P l2 → l1 ≫= f = l2 ≫= f → l1 = l2.
Proof.
  intros Hprefix Hne l1.
  induction l1 as [|a l1 IH]; intros [|b l2] Hl1 Hl2 E; [done|..].
  - rewrite bind_cons in E. symmetry in E.
    apply app_eq_nil in E as [E _]. by apply Hne in E.
  - rewrite bind_cons in E. apply app_eq_nil in E as [E _].
    by apply Hne in E.
  - rewrite !bind_cons in E.
    apply Forall_cons in Hl1 as [Ha Hl1]. apply Forall_cons in Hl2 as [Hb Hl2].
    apply Hprefix in E as [-> E]; [|done..]. f_equal. by apply IH.
Qed.

Lemma encoded_bytes (s : pystr) : wf_str s → Forall (λ b, b < 256) (encoded s).
Proof.
  unfold encoded. induction 1 as [|c s Hc _ IH]; [done|].
  rewrite bind_cons. apply Forall_app. split; [by apply scalar_bytes_range | done].
Qed.

Lemma quoted_inj (s1 s2 : pystr) :
  wf_str s1 → wf_str s2 → quoted s1 = quoted s2 → s1 = s2.
Proof.
  intros H1 H2 E. unfold quoted in E.
  apply (bind_prefix_inj _ (λ b, b < 256)) in E;
    [|apply quote_byte_prefix|apply quote_byte_nonempty
     |by apply encoded_bytes..].
  unfold encoded in E.
  by apply (bind_prefix_inj _ (λ c, c < 0x110000)) in E;
    [|apply scalar_bytes_prefix|apply scalar_bytes_nonempty|..].
Qed.

Example words_ex :
  words (str "  Beef   and	ale ") = [str "Beef"; str "and"; str "ale"].
Proof. reflexivity. Qed.

(** ** Which labels share an identifier *)

Lemma elem_of_lstrip (c : N) (s : pystr) : c ∈ lstrip s → c ∈ s.
Proof.
  induction s as [|d s IH]; simpl; [done|].
  destruct (is_space d); [|done]. intros Hc. apply elem_of_cons. auto.
Qed.

Lemma elem_of_rstrip (c : N) (s : pystr) : c ∈ rstrip s → c ∈ s.
Proof.
  induction s as [|d s IH]; simpl; [done|].
  destruct (rstrip s) as [|e r].
  - destruct (is_space d); [by intros ?%elem_of_nil|].
    intros ->%list_elem_of_singleton. by left.
  - intros [->|Hc]%elem_of_cons; [by left|]. right. by apply IH.
Qed.

Lemma elem_of_strip (c : N) (s : pystr) : c ∈ strip s → c ∈ s.
Proof. intros Hc. by apply elem_of_lstrip, elem_of_rstrip. Qed.

Lemma wf_strip (s : pystr) : wf_str s → wf_str (strip s).
Proof.
  unfold wf_str. rewrite !Forall_forall. intros Hs c Hc.
  by apply Hs, elem_of_strip.
Qed.

Lemma wf_replace (s : pystr) :
  wf_str s → wf_str (replace SPACE UNDERSCORE s).
Proof.
  unfold wf_str, replace. intros Hs. apply Forall_fmap.
  eapply Forall_impl; [exact Hs|]. intros c Hc. simpl.
  destruct (c =? SPACE); [reflexivity | done].
Qed.

(** The identifier keeps everything of a label but the blanks at its ends
    and the difference between a space and an underscore. *)
Lemma safe_name_inj (s1 s2 : pystr) :
  wf_str s1 → wf_str s2 → safe_name s1 = safe_name s2 →
  replace SPACE UNDERSCORE (strip s1) = replace SPACE UNDERSCORE (strip s2).
Proof.
  intros H1 H2. by apply quoted_inj; apply wf_replace, wf_strip.
Qed.

(** The same of [safe_value] itself: when it raises, the exception
    carries the normalized label. *)
Lemma safe_value_inj (s1 s2 : pystr) :
  wf_str s1 → wf_str s2 → safe_value s1 = safe_value s2 →
  replace SPACE UNDERSCORE (strip s1) = replace SPACE UNDERSCORE (strip s2).
Proof.
  intros H1 H2. rewrite !safe_value_eq.
  destruct (encodable (normalized s1)), (encodable (normalized s2));
    intros [= E]; [by apply safe_name_inj | done].
Qed.

Lemma create_uri_ref_inj (ns : pystr) (s1 s2 : pystr) :
  wf_str s1 → wf_str s2 →
  create_uri_ref ns (PStr s1) = create_uri_ref ns (PStr s2) →
  (s1 = [] ∧ s2 = [])
  ∨ replace SPACE UNDERSCORE (strip s1) = replace SPACE UNDERSCORE (strip s2).
Proof.
  intros H1 H2.
  destruct s1 as [|c1 s1], s2 as [|c2 s2].
  - by left.
  - rewrite (create_uri_ref_eq ns (c2 :: s2)) by done.
    by destruct (encodable (normalized (c2 :: s2))).
  - rewrite (create_uri_ref_eq ns (c1 :: s1)) by done.
    by destruct (encodable (normalized (c1 :: s1))).
  - rewrite !create_uri_ref_eq by done.
    destruct (encodable (normalized (c1 :: s1))),
      (encodable (normalized (c2 :: s2))); intros [= E]; right; [|done].
    apply app_inv_head in E. by apply safe_name_inj.
Qed.

Lemma replace_inj_no_underscore (a b : pystr) :
  UNDERSCORE ∉ a → UNDERSCORE ∉ b →
  replace SPACE UNDERSCORE a = replace SPACE UNDERSCORE b → a = b.
Proof.
  unfold replace. revert b.
  induction a as [|x a IH]; intros [|y b] Ha Hb E; try done.
  apply not_elem_of_cons in Ha as [Hx Ha].
  apply not_elem_of_cons in Hb as [Hy Hb].
  rewrite !fmap_cons in E. apply cons_eq_inv in E as [Exy E].
  f_equal; [|by apply IH].
  destruct (N.eqb_spec x SPACE), (N.eqb_spec y SPACE); congruence.
Qed.

Lemma is_space_spec (c : N) :
  is_space c = true ↔
  9 ≤ c ≤ 13 ∨ 0x1C ≤ c ≤ 0x20 ∨ c = 0x85 ∨ c = 0xA0 ∨ c = 0x1680
  ∨ 0x2000 ≤ c ≤ 0x200A ∨ c = 0x2028 ∨ c = 0x2029 ∨ c = 0x202F
  ∨ c = 0x205F ∨ c = 0x3000.
Proof.
  unfold is_space.
  rewrite !orb_true_iff, !andb_true_iff, !N.leb_le, !N.eqb_eq. tauto.
Qed.

Lemma lstrip_nil (s : pystr) :
  lstrip s = [] ↔ Forall (λ c, is_space c = true) s.
Proof.
  induction s as [|c s IH]; simpl; [done|].
  destruct (is_space c) eqn:Hc.
  - rewrite IH. split; [by constructor | by intros [_ ?]%Forall_cons].
  - split; [done|]. intros [? _]%Forall_cons. congruence.
Qed.

Lemma lstrip_head (s r : pystr) (c : N) :
  lstrip s = c :: r → is_space c = false.
Proof.
  induction s as [|d s IH]; simpl; [done|].
  destruct (is_space d) eqn:Hd; [done|]. by intros [= <- _].
Qed.

Lemma rstrip_nil (s : pystr) :
  rstrip s = [] ↔ Forall (λ c, is_space c = true) s.
Proof.
  induction s as [|c s IH]; simpl; [done|].
  destruct (rstrip s) as [|d r].
  - destruct (is_space c) eqn:Hc.
    + split; [|done]. intros _. constructor; [done|]. by apply IH.
    + split; [done|]. intros [? _]%Forall_cons. congruence.
  - split; [done|]. intros [_ Hs]%Forall_cons. by apply IH in Hs.
Qed.

Lemma strip_nil (s : pystr) :
  strip s = [] ↔ Forall (λ c, is_space c = true) s.
Proof.
  unfold strip. rewrite rstrip_nil, <- (lstrip_nil s). split.
  - destruct (lstrip s) as [|c r] eqn:E; [done|].
    intros [Hc _]%Forall_cons. apply lstrip_head in E. congruence.
  - by intros ->.
Qed.

Lemma letter_spec (c : N) :
  letter c = true ↔ is_space c = false ∧ c ≠ UNDERSCORE.
Proof.
  unfold letter. rewrite andb_true_iff, !negb_true_iff, N.eqb_neq. tauto.
Qed.

Lemma space_is_space : is_space SPACE = true.
Proof. reflexivity. Qed.

Lemma underscore_not_space : is_space UNDERSCORE = false.
Proof. reflexivity. Qed.

Lemma same_case_space (c1 c2 : N) :
  same_but_letters c1 c2 →
  is_space c1 = true ∨ is_space c2 = true → c1 = c2.
Proof.
  intros [->|[[H1 _]%letter_spec [H2 _]%letter_spec]]; [done|].
  intros [?|?]; congruence.
Qed.

Lemma same_case_is_space (c1 c2 : N) :
  same_but_letters c1 c2 → is_space c1 = is_space c2.
Proof.
  intros Hl. destruct (is_space c1) eqn:H1, (is_space c2) eqn:H2; try done.
  - assert (c1 = c2) by (apply same_case_space; auto). congruence.
  - assert (c1 = c2) by (apply same_case_space; auto). congruence.
Qed.

Lemma same_case_replace (c1 c2 : N) :
  same_but_letters c1 c2 →
  (if c1 =? SPACE then UNDERSCORE else c1)
  = (if c2 =? SPACE then UNDERSCORE else c2) →
  c1 = c2.
Proof.
  intros [->|[[H1 U1]%letter_spec [H2 U2]%letter_spec]]; [done|].
  destruct (N.eqb_spec c1 SPACE) as [->|_];
    [by rewrite space_is_space in H1|].
  destruct (N.eqb_spec c2 SPACE) as [->|_];
    [by rewrite space_is_space in H2|]. done.
Qed.

(** What [lstrip] drops from two labels equal up to letters is the
    same. *)
Lemma same_case_lstrip (s1 s2 : pystr) :
  Forall2 same_but_letters s1 s2 →
  ∃ w, s1 = w ++ lstrip s1 ∧ s2 = w ++ lstrip s2
       ∧ Forall2 same_but_letters (lstrip s1) (lstrip s2).
Proof.
  induction 1 as [|c1 c2 s1 s2 Hc Hs (w & E1 & E2 & IH)]; simpl.
  - by exists [].
  - rewrite <- (same_case_is_space _ _ Hc).
    destruct (is_space c1) eqn:Hsp.
    + assert (c1 = c2) as <- by (apply same_case_space; auto).
      exists (c1 :: w). simpl. by rewrite <- E1, <- E2.
    + exists []. simpl. split; [done|]. split; [done|]. by constructor.
Qed.

(** And so is what [rstrip] drops. *)
Lemma same_case_rstrip (s1 s2 : pystr) :
  Forall2 same_but_letters s1 s2 →
  ∃ w, s1 = rstrip s1 ++ w ∧ s2 = rstrip s2 ++ w
       ∧ Forall2 same_but_letters (rstrip s1) (rstrip s2).
Proof.
  induction 1 as [|c1 c2 s1 s2 Hc Hs (w & E1 & E2 & IH)]; simpl.
  - by exists [].
  - destruct IH as [|d1 d2 r1 r2 Hd Hr].
    + rewrite <- (same_case_is_space _ _ Hc). simpl in E1, E2. subst s1 s2.
      destruct (is_space c1) eqn:Hsp.
      * assert (c1 = c2) as <- by (apply same_case_space; auto).
        exists (c1 :: w). by repeat split.
      * exists w. split; [done|]. split; [done|].
        constructor; [done | constructor].
    + subst s1 s2. exists w.
      split; [done|]. split; [done|].
      constructor; [done|]. by constructor.
Qed.

Lemma same_case_replace_all (a b : pystr) :
  Forall2 same_but_letters a b →
  replace SPACE UNDERSCORE a = replace SPACE UNDERSCORE b → a = b.
Proof.
  unfold replace. induction 1 as [|c1 c2 a b Hc _ IH]; [done|].
  rewrite !fmap_cons. intros [E1 E2]%cons_eq_inv.
  f_equal; [by apply same_case_replace | by apply IH].
Qed.

(** Labels equal up to letters with the same identifier are equal. *)
Lemma same_case_same_identifier (s1 s2 : pystr) :
  Forall2 same_but_letters s1 s2 →
  replace SPACE UNDERSCORE (strip s1) = replace SPACE UNDERSCORE (strip s2) →
  s1 = s2.
Proof.
  intros Hs E.
  apply same_case_lstrip in Hs as (w & E1 & E2 & Hs).
  apply same_case_rstrip in Hs as (w' & E1' & E2' & Hs).
  apply same_case_replace_all in Hs; [|done]. unfold strip in Hs.
  by rewrite E1, E2, E1', E2', Hs.
Qed.

(** ** Words and the blanks between them *)

Lemma words_blank (s : pystr) :
  Forall (λ c, is_space c = true) s → words s = [].
Proof. induction 1 as [|c s Hc _ IH]; [done|]. simpl. by rewrite Hc. Qed.

Lemma words_unfold (c d : N) (s : pystr) :
  words (c :: d :: s)
  = if is_space c then words (d :: s)
    else if is_space d then [c] :: words (d :: s)
    else match words (d :: s) with
         | w :: ws => (c :: w) :: ws
         | [] => [[c]]
         end.
Proof. reflexivity. Qed.

(** A word starts at a character that is not blank, runs up to the next
    blank, and the other words follow. *)
Lemma words_cons (x : N) (s : pystr) :
  is_space x = false →
  words (x :: s) = (x :: first_run s) :: words (after_run s).
Proof.
  revert x. induction s as [|d s IH]; intros x Hx.
  - simpl. by rewrite Hx.
  - rewrite words_unfold, Hx. cbn [first_run after_run].
    destruct (is_space d) eqn:Hd; [done|]. by rewrite (IH d Hd).
Qed.

Lemma words_cons_blank (x : N) (s : pystr) :
  is_space x = true → words (x :: s) = words s.
Proof. intros Hx. simpl. by rewrite Hx. Qed.

Lemma words_lstrip (s : pystr) : words (lstrip s) = words s.
Proof.
  induction s as [|c s IH]; [done|]. cbn [lstrip].
  destruct (is_space c) eqn:Hc; [|done]. by rewrite words_cons_blank.
Qed.

Lemma rstrip_prefix (s : pystr) : ∃ w, s = rstrip s ++ w.
Proof.
  destruct (same_case_rstrip s s) as (w & E & _); [|by exists w].
  apply Forall_Forall2_diag, Forall_true. by left.
Qed.

Lemma words_rstrip (s : pystr) : words (rstrip s) = words s.
Proof.
  induction s as [|c s IH]; [done|]. cbn [rstrip].
  destruct (rstrip s) as [|e r] eqn:Er.
  - apply rstrip_nil in Er. pose proof (words_blank _ Er) as Hw.
    destruct (is_space c) eqn:Hc.
    + by rewrite words_cons_blank.
    + rewrite !words_cons by done.
      destruct Er as [|d s Hd _]; [done|]. cbn [first_run after_run].
      by rewrite Hd, Hw.
  - destruct (rstrip_prefix s) as [w Ew]. rewrite Er in Ew.
    destruct s as [|d s]; [done|]. injection Ew as -> Ew.
    rewrite !words_unfold, IH. done.
Qed.

Lemma words_strip (s : pystr) : words (strip s) = words s.
Proof. unfold strip. by rewrite words_rstrip, words_lstrip. Qed.

Lemma strip_head (s r : pystr) (c : N) :
  strip s = c :: r → is_space c = false.
Proof.
  unfold strip. intros E. destruct (rstrip_prefix (lstrip s)) as [w Ew].
  rewrite E in Ew. by apply lstrip_head in Ew.
Qed.

(** The replacement of spaces keeps blanks apart from each other. *)
Lemma replace_blank_inj (x y : N) :
  is_space x = true → is_space y = true →
  (if x =? SPACE then UNDERSCORE else x)
  = (if y =? SPACE then UNDERSCORE else y) → x = y.
Proof.
  intros Hx Hy.
  destruct (N.eqb_spec x SPACE) as [->|_], (N.eqb_spec y SPACE) as [->|_];
    try done.
  - intros <-. by rewrite underscore_not_space in Hy.
  - intros ->. by rewrite underscore_not_space in Hx.
Qed.

(** It turns only a space into what stands for a character that is not
    blank, and then into an underscore. *)
Lemma replace_blank_letter (x y : N) :
  is_space x = true → is_space y = false →
  (if x =? SPACE then UNDERSCORE else x)
  = (if y =? SPACE then UNDERSCORE else y) → y = UNDERSCORE.
Proof.
  intros Hx Hy.
  destruct (N.eqb_spec y SPACE) as [->|_];
    [by rewrite space_is_space in Hy|].
  destruct (N.eqb_spec x SPACE) as [->|_]; [done|].
  intros <-. congruence.
Qed.

Lemma replace_letter_inj (x y : N) :
  is_space x = false → is_space y = false →
  (if x =? SPACE then UNDERSCORE else x)
  = (if y =? SPACE then UNDERSCORE else y) → x = y.
Proof.
  intros Hx Hy.
  destruct (N.eqb_spec x SPACE) as [->|_];
    [by rewrite space_is_space in Hx|].
  destruct (N.eqb_spec y SPACE) as [->|_];
    [by rewrite space_is_space in Hy|]. done.
Qed.

(** Two texts with the same words, none of which begins with an
    underscore, that become equal when spaces are replaced are equal;
    the same holds from inside a word, for the words after it. *)
Lemma inner_space_inj (a b : pystr) :
  replace SPACE UNDERSCORE a = replace SPACE UNDERSCORE b →
  (words a = words b →
   Forall (λ w, head w ≠ Some UNDERSCORE) (words a) → a = b)
  ∧ (first_run a = first_run b →
     words (after_run a) = words (after_run b) →
     Forall (λ w, head w ≠ Some UNDERSCORE) (words (after_run a)) → a = b).
Proof.
  unfold replace. revert b.
  induction a as [|x a IH]; intros [|y b] E; try done.
  rewrite !fmap_cons in E. apply cons_eq_inv in E as [Exy E].
  destruct (IH b E) as [Hword Hrun].
  destruct (is_space x) eqn:Hx, (is_space y) eqn:Hy.
  - assert (x = y) as <- by (by apply replace_blank_inj).
    cbn [first_run after_run]. rewrite Hx, !words_cons_blank by done.
    split; intros; f_equal; auto.
  - apply replace_blank_letter in Exy; [|done..]. subst y. split.
    + rewrite words_cons_blank, (words_cons UNDERSCORE) by done.
      intros Hw Hall. rewrite Hw in Hall.
      apply Forall_cons in Hall as [Hhead _]. by destruct Hhead.
    + cbn [first_run]. by rewrite Hx, Hy.
  - symmetry in Exy. apply replace_blank_letter in Exy; [|done..].
    subst x. split.
    + rewrite (words_cons UNDERSCORE) by done.
      intros _ [Hhead _]%Forall_cons. by destruct Hhead.
    + cbn [first_run]. by rewrite Hx, Hy.
  - assert (x = y) as <- by (by apply replace_letter_inj). split.
    + rewrite !words_cons by done. intros [= Ef Ew] [_ Hall]%Forall_cons.
      f_equal. by apply Hrun.
    + cbn [first_run after_run]. rewrite Hx. intros [= Ef] Ew Hall.
      f_equal. by apply Hrun.
Qed.

(** Labels made of the same words, none of them after the first
    beginning with an underscore, that get the same identifier are equal
    once stripped. *)
Lemma same_words_same_identifier (s1 s2 : pystr) :
  words s1 = words s2 → plain_word_starts s1 →
  replace SPACE UNDERSCORE (strip s1) = replace SPACE UNDERSCORE (strip s2) →
  strip s1 = strip s2.
Proof.
  unfold plain_word_starts. intros Hw Hplain E.
  rewrite <- (words_strip s1), <- (words_strip s2) in Hw.
  rewrite <- (words_strip s1) in Hplain.
  destruct (strip s1) as [|x a] eqn:E1, (strip s2) as [|y b] eqn:E2;
    try done.
  pose proof (strip_head _ _ _ E1) as Hx.
  pose proof (strip_head _ _ _ E2) as Hy.
  rewrite !words_cons in Hw by done. rewrite words_cons in Hplain by done.
  injection Hw as <- Hf Hw. cbn [tail] in Hplain.
  unfold replace in E. rewrite !fmap_cons in E.
  apply cons_eq_inv in E as [_ E]. f_equal.
  by apply (inner_space_inj a b E).
Qed.

(** ** Variants of a label *)

(** C8, as stated, fails for blanks: the two labels below are made of the
    same three words and differ only by where the single and the double
    space stand, yet they get one identifier and one entity, because a
    space becomes the underscore the middle word is made of. *)
Lemma inner_space_variants_merge :
  let s1 := str "a __  c" in
  let s2 := str "a  __ c" in
  wf_str s1 ∧ wf_str s2
  ∧ differ_by_inner_space s1 s2
  ∧ safe_value s1 = inr (str "a_____c")
  ∧ safe_value s2 = inr (str "a_____c")
  ∧ create_uri_ref CATEGORY (PStr s1) = create_uri_ref CATEGORY (PStr s2)
  ∧ create_uri_ref CUISINE (PStr s1) = create_uri_ref CUISINE (PStr s2).
Proof.
  intros s1 s2.
  split; [apply (bool_decide_unpack _); by vm_compute|].
  split; [apply (bool_decide_unpack _); by vm_compute|].
  split; [|by repeat split].
  split; [reflexivity|]. vm_compute. discriminate.
Qed.

(** C8, amended: two labels that differ only by the case of letters
    (more generally: position by position, only where both hold a
    character that is neither blank nor an underscore) never share an
    identifier, and neither do two labels that differ only by the blanks
    between their words when no word after the first begins with an
    underscore; in both cases [safe_value] and [create_uri_ref] give them
    distinct results, in any namespace. *)
Theorem variants_stay_distinct (ns : pystr) (s1 s2 : pystr) :
  wf_str s1 → wf_str s2 →
  differ_in_letters s1 s2
  ∨ (differ_by_inner_space s1 s2 ∧ plain_word_starts s1) →
  safe_value s1 ≠ safe_value s2
  ∧ create_uri_ref ns (PStr s1) ≠ create_uri_ref ns (PStr s2).
Proof.
  intros H1 H2 Hvar.
  assert (Hkey : replace SPACE UNDERSCORE (strip s1)
                 ≠ replace SPACE UNDERSCORE (strip s2)).
  { destruct Hvar as [[Hne Hcase]|([Hw Hne] & Hplain)]; intros E.
    - by apply Hne, same_case_same_identifier.
    - by apply Hne, same_words_same_identifier. }
  assert (Hnil : ¬ (s1 = [] ∧ s2 = [])).
  { intros [-> ->]. by apply Hkey. }
  split.
  - intros E. by apply Hkey, safe_value_inj.
  - intros E. apply create_uri_ref_inj in E as [E|E]; done.
Qed.

Lemma variants_stay_distinct_witness :
  (safe_value (str "Seafood") ≠ safe_value (str "seafood")
   ∧ create_uri_ref CATEGORY (PStr (str "Seafood"))
     ≠ create_uri_ref CATEGORY (PStr (str "seafood")))
  ∧ (safe_value [0xC9; 0x74; 0xE9] ≠ safe_value [0xE9; 0x74; 0xE9]
     ∧ create_uri_ref CUISINE (PStr [0xC9; 0x74; 0xE9])
       ≠ create_uri_ref CUISINE (PStr [0xE9; 0x74; 0xE9]))
  ∧ (safe_value (str "Side_Dish x") ≠ safe_value (str "Side_Dish  x")
     ∧ create_uri_ref CATEGORY (PStr (str "Side_Dish x"))
       ≠ create_uri_ref CATEGORY (PStr (str "Side_Dish  x")))
  ∧ (safe_value (str "Side Dish") ≠ safe_value (str "Side	Dish")
     ∧ create_uri_ref CATEGORY (PStr (str "Side Dish"))
       ≠ create_uri_ref CATEGORY (PStr (str "Side	Dish"))).
Proof.
  split; [|split; [|split]].
  - apply (variants_stay_distinct CATEGORY (str "Seafood") (str "seafood")).
    + apply (bool_decide_unpack _). vm_compute. exact I.
    + apply (bool_decide_unpack _). vm_compute. exact I.
    + left. split; [vm_compute; discriminate|].
      repeat constructor; right; split; reflexivity.
  - apply (variants_stay_distinct CUISINE [0xC9; 0x74; 0xE9]
             [0xE9; 0x74; 0xE9]).
    + apply (bool_decide_unpack _). vm_compute. exact I.
    + apply (bool_decide_unpack _). vm_compute. exact I.
    + left. split; [vm_compute; discriminate|].
      repeat constructor; right; split; reflexivity.
  - apply (variants_stay_distinct CATEGORY
             (str "Side_Dish x") (str "Side_Dish  x")).
    + apply (bool_decide_unpack _). vm_compute. exact I.
    + apply (bool_decide_unpack _). vm_compute. exact I.
    + right. split; [split; [reflexivity | vm_compute; discriminate]|].
      apply (bool_decide_unpack _). vm_compute. exact I.
  - apply (variants_stay_distinct CATEGORY
             (str "Side Dish") (str "Side	Dish")).
    + apply (bool_decide_unpack _). vm_compute. exact I.
    + apply (bool_decide_unpack _). vm_compute. exact I.
    + right. split; [split; [reflexivity | vm_compute; discriminate]|].
      apply (bool_decide_unpack _). vm_compute. exact I.
Defined.

(** * Further properties of the script *)

(** ** [create_uri_ref]: blank labels, safe characters, collisions *)

Lemma bind_eq_nil {A B} (f : A → list B) (l : list A) :
  (∀ a, f a ≠ []) → l ≫= f = [] → l = [].
Proof.
  intros Hf. destruct l as [|a l]; [done|].
  rewrite bind_cons. intros [Ha _]%app_eq_nil. by apply Hf in Ha.
Qed.

Lemma quoted_nil (s : pystr) : quoted s = [] → s = [].
Proof.
  unfold quoted, encoded. intros E.
  apply bind_eq_nil in E; [|apply quote_byte_nonempty].
  by apply bind_eq_nil in E; [|apply scalar_bytes_nonempty].
Qed.

Lemma safe_name_nil (s : pystr) :
  safe_name s = [] ↔ Forall (λ c, is_space c = true) s.
Proof.
  rewrite <- strip_nil. unfold safe_name, normalized. split.
  - intros E%quoted_nil. by apply fmap_nil_inv in E.
  - by intros ->.
Qed.

(** X1: [create_uri_ref] gives no entity exactly for [None] and for the
    empty string; a label that is not empty but made of blanks only gets
    the namespace itself as its URI, and no other label does. *)
Theorem create_uri_ref_edge_cases (ns : pystr) :
  (∀ v, create_uri_ref ns v = inr None ↔ v = PNone ∨ v = PStr [])
  ∧ (∀ s, create_uri_ref ns (PStr s) = inr (Some (URIRef ns))
          ↔ s ≠ [] ∧ Forall (λ c, is_space c = true) s).
Proof.
  split.
  - intros [|[|c s]]; [naive_solver..|].
    rewrite create_uri_ref_eq by done.
    destruct (encodable (normalized (c :: s))); naive_solver.
  - intros [|c s]; [naive_solver|].
    rewrite create_uri_ref_eq by done.
    rewrite <- safe_name_nil. unfold term. split.
    + destruct (encodable (normalized (c :: s))); [|done].
      intros [= E]. split; [done|].
      by apply (app_inv_head ns _ []); rewrite app_nil_r.
    + intros [_ Hnil]. pose proof Hnil as Hblank.
      apply safe_name_nil, strip_nil in Hblank.
      unfold normalized. rewrite Hblank. simpl.
      by rewrite Hnil, app_nil_r.
Qed.

Lemma is_safe_spec (b : N) :
  is_safe b = true ↔
  0x41 ≤ b ≤ 0x5A ∨ 0x61 ≤ b ≤ 0x7A ∨ 0x30 ≤ b ≤ 0x39
  ∨ b = 0x5F ∨ b = 0x2E ∨ b = 0x2D ∨ b = 0x7E ∨ b = 0x2F.
Proof.
  unfold is_safe.
  rewrite !orb_true_iff, !andb_true_iff, !N.leb_le, !N.eqb_eq. tauto.
Qed.

Lemma is_space_false (c : N) :
  is_safe c = true ∨ c = PERCENT → is_space c = false ∧ c < 0x80.
Proof.
  rewrite is_safe_spec. unfold PERCENT. intros Hc. split; [|lia].
  destruct (is_space c) eqn:Hsp; [|done].
  apply is_space_spec in Hsp. lia.
Qed.

Lemma hex_digit_safe (d : N) : d < 16 → is_safe (hex_digit d) = true.
Proof.
  intros Hd. apply is_safe_spec. unfold hex_digit.
  destruct (N.ltb_spec d 10); lia.
Qed.

Lemma quote_byte_chars (b : N) :
  b < 256 → Forall (λ c, is_safe c = true ∨ c = PERCENT) (quote_byte b).
Proof.
  intros Hb. unfold quote_byte. pose proof (divmod16 b).
  destruct (is_safe b) eqn:Hs.
  - constructor; [by left | constructor].
  - constructor; [by right|].
    constructor; [left; apply hex_digit_safe; lia|].
    constructor; [left; apply hex_digit_safe; lia | constructor].
Qed.

Lemma safe_name_alphabet (s : pystr) :
  wf_str s →
  Forall (λ c, (is_safe c = true ∨ c = PERCENT)
               ∧ is_space c = false ∧ c < 0x80)
    (safe_name s).
Proof.
  intros Hs. unfold safe_name, quoted.
  apply Forall_bind.
  eapply Forall_impl; [apply encoded_bytes, wf_replace, wf_strip, Hs|].
  intros b Hb. eapply Forall_impl; [by apply quote_byte_chars|].
  intros c Hc. split; [done | by apply is_space_false].
Qed.

(** X2: the identifier [create_uri_ref] appends to the namespace is made
    of the characters [quote] never escapes and of ["%"] only: it is
    ASCII and holds no blank of any kind. *)
Theorem safe_value_chars (s identifier : pystr) :
  wf_str s → safe_value s = inr identifier →
  Forall (λ c, (is_safe c = true ∨ c = PERCENT)
               ∧ is_space c = false ∧ c < 0x80)
    identifier.
Proof.
  intros Hs [_ ->]%safe_value_inr. by apply safe_name_alphabet.
Qed.

Lemma safe_value_chars_witness :
  let label := str " Cr" ++ [0xE8] ++ str "me & co " in
  safe_value label = inr (str "Cr%C3%A8me_%26_co")
  ∧ Forall (λ c, (is_safe c = true ∨ c = PERCENT)
                 ∧ is_space c = false ∧ c < 0x80)
      (str "Cr%C3%A8me_%26_co").
Proof.
  intros label. split; [reflexivity|].
  apply (safe_value_chars label).
  - apply (bool_decide_unpack _). vm_compute. exact I.
  - reflexivity.
Defined.

(** X3: two non-empty labels are given the same URI in a namespace
    exactly when they agree once the blanks at both ends are removed and
    every space is read as an underscore; nothing else is ever merged. *)
Theorem same_entity_iff (ns : pystr) (s1 s2 : pystr) :
  wf_str s1 → wf_str s2 → s1 ≠ [] → s2 ≠ [] →
  create_uri_ref ns (PStr s1) = create_uri_ref ns (PStr s2)
  ↔ replace SPACE UNDERSCORE (strip s1) = replace SPACE UNDERSCORE (strip s2).
Proof.
  intros H1 H2 Hn1 Hn2. split.
  - intros E. apply create_uri_ref_inj in E as [[E _]|E]; done.
  - intros E. destruct s1, s2; try done.
    rewrite !create_uri_ref_eq by done.
    unfold safe_name, normalized. by rewrite E.
Qed.

Lemma same_entity_iff_witness :
  create_uri_ref CATEGORY (PStr (str "Side Dish"))
  = create_uri_ref CATEGORY (PStr (str "  Side_Dish "))
  ↔ replace SPACE UNDERSCORE (strip (str "Side Dish"))
    = replace SPACE UNDERSCORE (strip (str "  Side_Dish ")).
Proof.
  apply same_entity_iff.
  - apply (bool_decide_unpack _). vm_compute. exact I.
  - apply (bool_decide_unpack _). vm_compute. exact I.
  - vm_compute. discriminate.
  - vm_compute. discriminate.
Defined.

Lemma lstrip_id (s : pystr) (c : N) :
  is_space c = false → lstrip (c :: s) = c :: s.
Proof. simpl. by intros ->. Qed.

Lemma quoted_safe (s : pystr) :
  Forall (λ c, is_safe c = true) s → quoted s = s.
Proof.
  unfold quoted, encoded. induction 1 as [|c s Hc _ IH]; [done|].
  rewrite bind_cons. unfold scalar_bytes at 1.
  assert (c < 0x80) as ->%N.ltb_lt by (apply is_space_false; auto).
  rewrite bind_app, IH, bind_cons. unfold quote_byte. by rewrite Hc.
Qed.

(** X4: for a label written with letters, digits, [_ . - ~ /] and
    spaces, the identifier is the trimmed label with each space turned
    into an underscore; nothing is escaped. *)
Lemma encodable_safe (s : pystr) :
  Forall (λ c, is_safe c = true) s → encodable s = true.
Proof.
  induction 1 as [|c s Hc _ IH]; [done|].
  change (encodable (c :: s)) with (negb (is_surrogate c) && encodable s).
  rewrite IH, andb_true_r.
  assert (c < 0x80) by (by apply is_space_false; left).
  apply negb_true_iff, andb_false_iff. left. apply N.leb_gt. lia.
Qed.

Theorem safe_value_plain (s : pystr) :
  Forall (λ c, is_safe c = true ∨ c = SPACE) s →
  safe_value s = inr (replace SPACE UNDERSCORE (strip s)).
Proof.
  intros Hs.
  assert (Hsafe : Forall (λ c, is_safe c = true) (normalized s)).
  { unfold normalized, replace. apply Forall_fmap, Forall_forall.
    intros c Hc%elem_of_strip. rewrite Forall_forall in Hs.
    destruct (Hs c Hc) as [Hsafe| ->]; simpl; [|reflexivity].
    destruct (c =? SPACE); [reflexivity | done]. }
  rewrite safe_value_eq, (encodable_safe _ Hsafe). f_equal.
  unfold safe_name. by apply quoted_safe.
Qed.

Lemma safe_value_plain_witness :
  safe_value (str " Side Dish ")
  = inr (replace SPACE UNDERSCORE (strip (str " Side Dish ")))
  ∧ safe_value (str " Side Dish ") = inr (str "Side_Dish").
Proof.
  split; [|reflexivity].
  apply safe_value_plain. apply (bool_decide_unpack _). vm_compute. exact I.
Defined.

(** ** The triples of a record, one shape at a time *)

Lemma elem_of_scalar_triples (t : triple) meal meal_uri key property :
  t ∈ scalar_triples meal meal_uri key property ↔
  ∃ v, get meal (str key) = PStr v ∧ truth v = true
       ∧ t = (meal_uri, term RECIPE (str property), Literal v).
Proof.
  unfold scalar_triples. rewrite elem_of_for_truthy.
  apply exist_proper. intros v. by rewrite list_elem_of_singleton.
Qed.

Lemma mapper_triple_closed (meal : dict) (meal_id : pyval) (t : triple) :
  t ∈ meal_triples meal meal_id ↔ mapper_triple meal meal_id t.
Proof.
  split.
  - unfold meal_triples. cbv zeta. rewrite !elem_of_app, !elem_of_guard.
    intros [H|[H|[H|[H|[H|[[Hc H]|[[Hst H]|[Hst H]]]]]]]];
      try (pose proof Hst as [Hc Ha]%stops_false).
    + apply list_elem_of_singleton in H as ->. constructor.
    + apply elem_of_scalar_triples in H as (v & Hv & Ht & ->).
      by apply (mt_scalar _ _ "strMeal" "hasName"); [closed_decide|..].
    + apply elem_of_scalar_triples in H as (v & Hv & Ht & ->).
      by apply (mt_scalar _ _ "strInstructions" "hasInstructions");
        [closed_decide|..].
    + apply elem_of_scalar_triples in H as (v & Hv & Ht & ->).
      by apply (mt_scalar _ _ "strMealThumb" "hasThumbnail");
        [closed_decide|..].
    + apply elem_of_scalar_triples in H as (v & Hv & Ht & ->).
      by apply (mt_scalar _ _ "strYoutube" "hasYoutubeLink");
        [closed_decide|..].
    + assert (Hk : ("strCategory", CATEGORY, "Category", "belongsToCategory")%string
                   ∈ entity_kinds) by (by left).
      apply elem_of_entity_triples in H as (v & Hv & Ht & [-> | [-> | ->]]).
      * by eapply mt_entity_type.
      * by eapply mt_entity_label.
      * by eapply mt_entity_relation.
    + assert (Hk : ("strArea", CUISINE, "Cuisine", "belongsToCuisine")%string
                   ∈ entity_kinds) by (by right; left).
      apply elem_of_entity_triples in H as (v & Hv & Ht & [-> | [-> | ->]]).
      * by eapply mt_entity_type.
      * by eapply mt_entity_label.
      * by eapply mt_entity_relation.
    + apply elem_of_slots in H as (i & Hi & H).
      apply elem_of_slot_triples in H
        as (name & Hn & Hs & [-> | [-> | [(measure & Hm & Hms & ->) | ->]]]).
      * by eapply mt_slot_type.
      * by eapply mt_slot_name.
      * by eapply mt_slot_measure.
      * by eapply mt_slot_relation.
  - intros Ht. destruct Ht as
      [ | key property v Hf Hv Ht
        | key ns class relation v Hk Hv Ht Hr Hc
        | key ns class relation v Hk Hv Ht Hr Hc
        | key ns class relation v Hk Hv Ht Hr Hc
        | i name Hi Hn Hs Hst | i name Hi Hn Hs Hst
        | i name measure Hi Hn Hs Hm Hms Hst | i name Hi Hn Hs Hst ].
    + unfold meal_triples. cbv zeta. rewrite !elem_of_app.
      left. by apply list_elem_of_singleton.
    + assert (Hin : (term_of MEAL meal_id, term RECIPE (str property), Literal v)
                    ∈ scalar_triples meal (term_of MEAL meal_id) key property).
      { apply elem_of_scalar_triples. by exists v. }
      unfold meal_triples. cbv zeta. rewrite !elem_of_app.
      unfold scalar_fields in Hf.
      apply elem_of_cons in Hf as [[= -> ->]|Hf]; [by right; left|].
      apply elem_of_cons in Hf as [[= -> ->]|Hf]; [by do 2 right; left|].
      apply elem_of_cons in Hf as [[= -> ->]|Hf]; [by do 3 right; left|].
      apply list_elem_of_singleton in Hf as [= -> ->]. by do 4 right; left.
    + eapply entity_in_meal_triples; [done..|].
      apply elem_of_entity_triples. exists v. by eauto.
    + eapply entity_in_meal_triples; [done..|].
      apply elem_of_entity_triples. exists v. by eauto.
    + eapply entity_in_meal_triples; [done..|].
      apply elem_of_entity_triples. exists v. by eauto 6.
    + apply (slot_in_meal_triples _ _ _ i Hst Hi), elem_of_slot_triples.
      exists name. by eauto.
    + apply (slot_in_meal_triples _ _ _ i Hst Hi), elem_of_slot_triples.
      exists name. by eauto 6.
    + apply (slot_in_meal_triples _ _ _ i Hst Hi), elem_of_slot_triples.
      exists name. split; [done|]. split; [done|].
      right; right; left. by exists measure.
    + apply (slot_in_meal_triples _ _ _ i Hst Hi), elem_of_slot_triples.
      exists name. by eauto 7.
Qed.

Lemma mapper_triple_iff (meal : dict) (meal_id : pyval) (t : triple) :
  meal !! str "idMeal" = Some meal_id →
  t ∈ emitted meal ↔ mapper_triple meal meal_id t.
Proof. intros Hid. rewrite (emitted_eq _ _ Hid). apply mapper_triple_closed. Qed.

(** ** How much one record adds *)

Lemma length_for_truthy_le (v : pyval) (f : pystr → list triple) (n : nat) :
  (∀ s, (length (f s) ≤ n)%nat) → (length (for_truthy v f) ≤ n)%nat.
Proof.
  intros Hf. destruct v as [|s]; simpl; [lia|].
  destruct (truth s); [apply Hf | simpl; lia].
Qed.

Lemma length_bind_le {A B} (f : A → list B) (l : list A) (n : nat) :
  (∀ x, (length (f x) ≤ n)%nat) → (length (l ≫= f) ≤ n * length l)%nat.
Proof.
  intros Hf. induction l as [|x l IH]; [simpl; lia|].
  rewrite bind_cons, length_app. specialize (Hf x). simpl. lia.
Qed.

Lemma length_slot_triples meal meal_id meal_uri i :
  (length (slot_triples meal meal_id meal_uri i) ≤ 4)%nat.
Proof.
  unfold slot_triples. apply length_for_truthy_le. intros name.
  destruct (truth (strip name)); [|simpl; lia].
  rewrite !length_app. simpl.
  assert (length (measure_triples meal meal_id i) ≤ 1)%nat; [|lia].
  unfold measure_triples. apply length_for_truthy_le. intros measure.
  destruct (truth (strip measure)); simpl; lia.
Qed.

Lemma length_guard_le (stop : bool) (L : list triple) :
  (length (guard stop L) ≤ length L)%nat.
Proof. destruct stop; simpl; lia. Qed.

Lemma length_meal_triples meal meal_id :
  (1 ≤ length (meal_triples meal meal_id) ≤ 91)%nat.
Proof.
  unfold meal_triples. cbv zeta. rewrite !length_app.
  pose proof (length_bind_le
    (slot_triples meal meal_id (term_of MEAL meal_id)) (seq 1 20) 4
    (length_slot_triples meal meal_id _)) as Hslots.
  rewrite length_seq in Hslots.
  pose proof (length_guard_le (stops meal)
    (seq 1 20 ≫= slot_triples meal meal_id (term_of MEAL meal_id))).
  pose proof (length_guard_le (raises meal "strCategory")
    (entity_triples meal (term_of MEAL meal_id) "strCategory" CATEGORY
       "Category" "belongsToCategory")).
  pose proof (length_guard_le (stops meal)
    (entity_triples meal (term_of MEAL meal_id) "strArea" CUISINE
       "Cuisine" "belongsToCuisine")).
  assert (Hscalar : ∀ key property,
    (length (scalar_triples meal (term_of MEAL meal_id) key property)
     ≤ 1)%nat).
  { intros. apply length_for_truthy_le. intros. simpl. lia. }
  assert (Hentity : ∀ key ns class relation,
    (length (entity_triples meal (term_of MEAL meal_id) key ns class
               relation) ≤ 3)%nat).
  { intros. apply length_for_truthy_le. intros. simpl. lia. }
  pose proof (Hscalar "strMeal" "hasName")%string.
  pose proof (Hscalar "strInstructions" "hasInstructions")%string.
  pose proof (Hscalar "strMealThumb" "hasThumbnail")%string.
  pose proof (Hscalar "strYoutube" "hasYoutubeLink")%string.
  pose proof (Hentity "strCategory" CATEGORY "Category" "belongsToCategory")%string.
  pose proof (Hentity "strArea" CUISINE "Cuisine" "belongsToCuisine")%string.
  change (length [(term_of MEAL meal_id, RDF_type, term RECIPE (str "Meal"))])
    with 1%nat.
  lia.
Qed.

Lemma size_union_list (g : Graph) (L : list triple) :
  (size (g ∪ list_to_set L) ≤ size g + length L)%nat.
Proof.
  rewrite <- replay_graph. revert g.
  induction L as [|t L IH]; intros g; simpl; [lia|].
  etrans; [apply IH|]. unfold store_add, graph_store.
  rewrite size_union_alt, size_singleton.
  assert (size (g ∖ {[t]}) ≤ size g)%nat; [|lia].
  apply subseteq_size. set_solver.
Qed.

(** X5: one record adds at least one and at most 91 triples (1 for the
    meal, 4 scalar fields, 3 each for category and cuisine, 4 for each of
    20 ingredients), so mapping it makes the store grow by at most 91. *)
Theorem triples_per_meal (meal : dict) (meal_id : pyval) (g : Graph) :
  meal !! str "idMeal" = Some meal_id →
  (1 ≤ length (emitted meal) ≤ 91)%nat
  ∧ (size (add_meal_to_graph meal g).2 ≤ size g + 91)%nat.
Proof.
  intros Hid.
  assert (Hlen : (1 ≤ length (emitted meal) ≤ 91)%nat).
  { rewrite (emitted_eq _ _ Hid). apply length_meal_triples. }
  split; [done|].
  rewrite add_meal_to_graph_graph. simpl.
  pose proof (size_union_list g (emitted meal)). lia.
Qed.

Lemma triples_per_meal_witness :
  (1 ≤ length (emitted beef_stew) ≤ 91)%nat
  ∧ (size (add_meal_to_graph (G:=Graph) beef_stew ∅).2 ≤ size (∅ : Graph) + 91)%nat.
Proof. apply (triples_per_meal beef_stew (PStr (str "52874"))). reflexivity. Defined.

(** ** The loop of [main] over the fetched records *)

Lemma add_meal_to_graph_subseteq (meal : dict) (g : Graph) :
  g ⊆ (add_meal_to_graph meal g).2.
Proof.
  rewrite add_meal_to_graph_graph. simpl. apply union_subseteq_l.
Qed.

(** X6: the loop never removes a triple: whatever the records are and
    whether it ends normally or stops on an error, every triple that was
    in the store before is in it afterwards. *)
Theorem add_meals_keeps (meals : list dict) (g : Graph) :
  g ⊆ (add_meals meals g).2.
Proof.
  unfold add_meals. revert g.
  induction meals as [|meal meals IH]; intros g; [done|].
  cbn [for_]. unfold mbind, M_bind.
  pose proof (add_meal_to_graph_subseteq meal g) as Hstep.
  destruct (add_meal_to_graph meal g) as [[e|[]] g']; simpl in *; [done|].
  etrans; [exact Hstep | apply IH].
Qed.

Lemma loop_outcome_app (good : list dict) (rest : list dict) :
  loop_outcome good = inr tt →
  loop_outcome (good ++ rest) = loop_outcome rest
  ∧ processed (good ++ rest) = good ++ processed rest.
Proof.
  induction good as [|meal good IH]; cbn [app loop_outcome processed];
    [done|].
  destruct (outcome meal) as [e|[]]; [done|].
  intros [-> ->]%IH. done.
Qed.

(** The loop stops at the first record on which the mapper raises. *)
Lemma add_meals_raise (good : list dict) (bad : dict) (rest : list dict)
    (e : exn) (g : Graph) :
  loop_outcome good = inr tt → outcome bad = inl e →
  add_meals (good ++ bad :: rest) g
  = (inl e, g ∪ list_to_set (good ≫= emitted) ∪ list_to_set (emitted bad)).
Proof.
  intros Hgood Hbad. rewrite add_meals_graph.
  destruct (loop_outcome_app good (bad :: rest) Hgood) as [-> ->].
  cbn [loop_outcome processed]. rewrite Hbad. f_equal.
  rewrite bind_app, bind_cons, app_nil_r, list_to_set_app_L.
  by rewrite (assoc_L (∪)).
Qed.

(** X7: the loop stops at the first record on which the mapper raises,
    with the exception of that record: the records before it are in the
    store in full, the record itself with what was added before the
    exception, and no record after it is looked at. A record without
    [idMeal] stops it with the [KeyError] and contributes nothing. *)
Theorem add_meals_stops (good : list dict) (bad : dict) (rest : list dict)
    (e : exn) (g : Graph) :
  (add_meals good g).1 = inr tt →
  (add_meal_to_graph bad g).1 = inl e →
  add_meals (good ++ bad :: rest) g
  = (inl e, g ∪ list_to_set (good ≫= emitted) ∪ list_to_set (emitted bad))
  ∧ (bad !! str "idMeal" = None →
     e = KeyError (str "idMeal") ∧ emitted bad = []).
Proof.
  rewrite add_meals_graph, outcome_graph. cbn [fst].
  intros Hgood Hbad. split; [by apply add_meals_raise|].
  intros Hid. split; [|by apply emitted_no_id].
  unfold outcome in Hbad. rewrite add_meal_to_graph_KeyError in Hbad by done.
  by injection Hbad.
Qed.

Lemma add_meals_stops_witness :
  add_meals (G:=Graph) ([beef_stew] ++ ∅ :: [beef_pie]) ∅
  = (inl (KeyError (str "idMeal")),
     ∅ ∪ list_to_set ([beef_stew] ≫= emitted) ∪ list_to_set (emitted ∅))
  ∧ add_meals (G:=Graph) ([beef_stew] ++ surrogate_category :: [beef_pie]) ∅
    = (inl (UnicodeEncodeError [0xD800]),
       ∅ ∪ list_to_set ([beef_stew] ≫= emitted)
         ∪ list_to_set (emitted surrogate_category)).
Proof.
  split.
  - apply (add_meals_stops [beef_stew] ∅ [beef_pie]); reflexivity.
  - apply (add_meals_stops [beef_stew] surrogate_category [beef_pie]);
      reflexivity.
Defined.



(** ** The shape of the store *)

(** Split a hypothesis [(key, property) ∈ scalar_fields] into its four
    cases, and [_ ∈ entity_kinds] into its two. *)
Ltac destruct_scalar Hf :=
  unfold scalar_fields in Hf;
  apply elem_of_cons in Hf as [[= -> ->]|Hf];
    [|apply elem_of_cons in Hf as [[= -> ->]|Hf];
      [|apply elem_of_cons in Hf as [[= -> ->]|Hf];
        [|apply list_elem_of_singleton in Hf as [= -> ->]]]].

(** The triples of the store are those of the records the loop got to,
    whether it ended normally or not. *)
Lemma mapper_triple_in_store (meals : list dict) (meal : dict)
    (meal_id : pyval) (t : triple) :
  meal ∈ processed meals → meal !! str "idMeal" = Some meal_id →
  mapper_triple meal meal_id t → t ∈ (add_meals (G:=Graph) meals ∅).2.
Proof.
  intros Hm Hid Ht. apply elem_of_add_meals.
  exists meal. split; [done|]. by apply (mapper_triple_iff _ _ _ Hid).
Qed.

Lemma store_triple_inv (meals : list dict) (t : triple) :
  t ∈ (add_meals (G:=Graph) meals ∅).2 →
  ∃ meal meal_id, meal ∈ processed meals
                  ∧ meal !! str "idMeal" = Some meal_id
                  ∧ mapper_triple meal meal_id t.
Proof.
  intros (meal & Hm & Ht)%elem_of_add_meals.
  destruct (meal !! str "idMeal") as [meal_id|] eqn:Hid.
  - exists meal, meal_id. split; [done|]. split; [done|].
    by apply (mapper_triple_iff _ _ _ Hid).
  - rewrite (emitted_no_id _ Hid) in Ht. by apply elem_of_nil in Ht.
Qed.

(** X9: in a store built from records with identifiers, every subject
    carries an [rdf:type] of one of the four classes, and so does every
    object that is not a literal, unless it is the class of a type triple:
    no relation points to an entity the store does not describe. *)
Theorem every_node_typed (meals : list dict) :
  Forall (λ meal, is_Some (meal !! str "idMeal")) meals →
  let G := (add_meals (G:=Graph) meals ∅).2 in
  let typed (n : node) :=
    ∃ class : string,
      class ∈ ["Meal"; "Category"; "Cuisine"; "Ingredient"]%string
      ∧ (n, RDF_type, term RECIPE (str class)) ∈ G in
  ∀ s p o, (s, p, o) ∈ G →
    typed s ∧ (p = RDF_type ∨ (∃ l, o = Literal l) ∨ typed o).
Proof.
  intros Hids G typed s p o Ht.
  apply store_triple_inv in Ht as (meal & meal_id & Hm & Hid & Ht).
  assert (Hmeal : typed (term_of MEAL meal_id)).
  { exists "Meal"%string. split; [by left|].
    eapply mapper_triple_in_store; [done..|]. constructor. }
  assert (Hentity : ∀ key ns class relation v,
    (key, ns, class, relation) ∈ entity_kinds →
    get meal (str key) = PStr v → truth v = true →
    raises meal key = false → raises meal "strCategory" = false →
    typed (term ns (safe_name v))).
  { intros key ns class relation v Hk Hv Htv Hr Hc. exists class. split.
    - destruct_kind Hk; closed_decide.
    - eapply mapper_triple_in_store; [done..|]. by eapply mt_entity_type. }
  assert (Hslot : ∀ i name, (1 ≤ i ≤ 20)%nat →
    get meal (str "strIngredient" ++ str_of_nat i) = PStr name →
    truth (strip name) = true → stops meal = false →
    typed (ingredient_uri meal_id i)).
  { intros i name Hi Hn Hs Hst.
    exists "Ingredient"%string. split; [closed_decide|].
    eapply mapper_triple_in_store; [done..|]. by eapply mt_slot_type. }
  remember (s, p, o) as t eqn:Et.
  destruct Ht; apply triple_inj in Et as (<- & <- & <-); eauto 8.
Qed.

Lemma every_node_typed_witness :
  let G := (add_meals (G:=Graph) [beef_stew; beef_pie] ∅).2 in
  let typed (n : node) :=
    ∃ class : string,
      class ∈ ["Meal"; "Category"; "Cuisine"; "Ingredient"]%string
      ∧ (n, RDF_type, term RECIPE (str class)) ∈ G in
  typed (term_of MEAL (PStr (str "52874")))
  ∧ (term RECIPE (str "belongsToCategory") = RDF_type
     ∨ (∃ l, term CATEGORY (str "Beef") = Literal l)
     ∨ typed (term CATEGORY (str "Beef"))).
Proof.
  assert (Hids : Forall (λ meal : dict, is_Some (meal !! str "idMeal"))
                   [beef_stew; beef_pie])
    by (repeat constructor; eexists; reflexivity).
  apply (every_node_typed [beef_stew; beef_pie] Hids
           (term_of MEAL (PStr (str "52874")))
           (term RECIPE (str "belongsToCategory"))
           (term CATEGORY (str "Beef"))).
  apply (mapper_triple_in_store _ beef_stew (PStr (str "52874")) _).
  - apply elem_of_cons. left. reflexivity.
  - reflexivity.
  - apply (mt_entity_relation _ _ "strCategory" CATEGORY "Category"
             "belongsToCategory" (str "Beef")).
    + apply elem_of_cons. left. reflexivity.
    + reflexivity.
    + reflexivity.
    + reflexivity.
    + reflexivity.
Defined.

(** X10: a measure is never left alone: whenever a record adds an
    ingredientMeasure triple, its subject is the Ingredient of one of the
    slots 1..20, and the record also adds that Ingredient's type, its
    name and the relation from the meal. *)
Theorem measure_never_standalone (meal : dict) (meal_id : pyval) (s o : node) :
  meal !! str "idMeal" = Some meal_id →
  (s, term RECIPE (str "ingredientMeasure"), o) ∈ emitted meal →
  ∃ i name,
    (1 ≤ i ≤ 20)%nat ∧ s = ingredient_uri meal_id i
    ∧ (s, RDF_type, term RECIPE (str "Ingredient")) ∈ emitted meal
    ∧ (s, term RECIPE (str "ingredientName"), Literal (strip name))
      ∈ emitted meal
    ∧ (term_of MEAL meal_id, term RECIPE (str "hasIngredient"), s)
      ∈ emitted meal.
Proof.
  intros Hid Ht. apply (mapper_triple_iff _ _ _ Hid) in Ht.
  remember (s, term RECIPE (str "ingredientMeasure"), o) as t eqn:Et.
  destruct Ht as
    [ | key property v Hf Hv Ht
      | key ns class relation v Hk Hv Ht Hr Hc
      | key ns class relation v Hk Hv Ht Hr Hc
      | key ns class relation v Hk Hv Ht Hr Hc
      | i name Hi Hn Hs Hst | i name Hi Hn Hs Hst
      | i name measure Hi Hn Hs Hm Hms Hst | i name Hi Hn Hs Hst ];
    apply triple_inj in Et as (Es & Ep & Eo);
    try refute Ep.
  - destruct_scalar Hf; refute Ep.
  - destruct_kind Hk; refute Ep.
  - exists i, name. subst s. split; [done|]. split; [done|].
    rewrite !(mapper_triple_iff _ _ _ Hid).
    split; [by eapply mt_slot_type|].
    split; [by eapply mt_slot_name | by eapply mt_slot_relation].
Qed.

Lemma measure_never_standalone_witness :
  ∃ i name,
    (1 ≤ i ≤ 20)%nat
    ∧ ingredient_uri (PStr (str "52874")) 1
      = ingredient_uri (PStr (str "52874")) i
    ∧ (ingredient_uri (PStr (str "52874")) 1, RDF_type,
       term RECIPE (str "Ingredient")) ∈ emitted beef_stew
    ∧ (ingredient_uri (PStr (str "52874")) 1,
       term RECIPE (str "ingredientName"), Literal (strip name))
      ∈ emitted beef_stew
    ∧ (term_of MEAL (PStr (str "52874")), term RECIPE (str "hasIngredient"),
       ingredient_uri (PStr (str "52874")) 1) ∈ emitted beef_stew.
Proof.
  apply (measure_never_standalone beef_stew (PStr (str "52874"))
           (ingredient_uri (PStr (str "52874")) 1) (Literal (str "1kg"))).
  - reflexivity.
  - apply (bool_decide_unpack _). vm_compute. exact I.
Defined.



(** ** Fetching *)

Lemma encodable_app (a b : pystr) :
  encodable (a ++ b) = encodable a && encodable b.
Proof. apply forallb_app. Qed.

Lemma encodable_digits (d : Decimal.uint) : encodable (digits d) = true.
Proof. induction d; simpl; by rewrite ?IHd. Qed.

(** Only the name can keep the line from being written. *)
Lemma fetched_line_encodable (strMeal : pyval) (i count : nat) :
  encodable (fetched_line strMeal i count) = encodable (format strMeal).
Proof.
  unfold fetched_line, str_of_nat.
  rewrite !encodable_app, !encodable_digits.
  change (encodable (str "Fetched: ")) with true.
  change (encodable (str " (")) with true.
  change (encodable (str "/")) with true.
  change (encodable (str ")")) with true.
  by rewrite !andb_true_r.
Qed.

Lemma print_eq {S : Type} (line : pystr) (st : S) :
  print line st
  = (if encodable line then inr tt else inl (UnicodeEncodeError line), st).
Proof. unfold print. rewrite utf8_eq. by destruct (encodable line). Qed.

Lemma fetch_turn_spec (replies : nat → reply) (count i : nat)
    (st : fetch_state) :
  fetch_turn replies count i st
  = (inr tt,
     {| fetched := fetched st ++ option_list (contributed (replies i));
        slept := slept st + (if completed (replies i) then 1 else 0) |}).
Proof.
  unfold fetch_turn, try_except, requests_get, contributed, completed.
  destruct st as [ms n]. unfold mbind, M_bind.
  destruct (replies i) as [|status_code json]; simpl.
  { by rewrite app_nil_r, Nat.add_0_r. }
  unfold when. case_bool_decide as Hcode; simpl.
  - destruct json as [[|meal l]|]; simpl;
      try (by rewrite app_nil_r, Nat.add_0_r).
    unfold getitem. destruct (meal !! str "strMeal") as [v|]; simpl.
    + rewrite print_eq, fetched_line_encodable.
      destruct (encodable (format v)); simpl;
        by rewrite ?Nat.add_1_r, ?Nat.add_0_r.
    + by rewrite Nat.add_0_r.
  - rewrite Nat.add_1_r. by destruct json as [[|meal l]|]; rewrite app_nil_r.
Qed.

Lemma fetch_loop_spec (replies : nat → reply) (count a n : nat)
    (st : fetch_state) :
  for_ (seq a n) (fetch_turn replies count) st
  = (inr tt,
     {| fetched := fetched st ++ omap contributed (replies <$> seq a n);
        slept := slept st + length (filter (λ r, completed r = true)
                                      (replies <$> seq a n)) |}).
Proof.
  revert a st. induction n as [|n IH]; intros a st.
  - simpl. destruct st. by rewrite app_nil_r, Nat.add_0_r.
  - cbn [seq for_]. unfold mbind at 1, M_bind.
    rewrite fetch_turn_spec, IH. cbn [fetched slept].
    rewrite fmap_cons. cbn [omap list_omap].
    f_equal. f_equal.
    + rewrite <- app_assoc. f_equal. by destruct (contributed (replies a)).
    + destruct (completed (replies a)) eqn:Hc.
      * rewrite filter_cons_True by done. simpl. lia.
      * rewrite filter_cons_False by (by rewrite Hc). lia.
Qed.

Lemma length_omap_le {A B} (f : A → option B) (l : list A) :
  (length (omap f l) ≤ length l)%nat.
Proof.
  induction l as [|x l IH]; [done|]. cbn [omap list_omap].
  destruct (f x); simpl; lia.
Qed.



(** X12: [fetch_random_meals] never raises, whatever the replies are. It
    makes one request per turn, and what it returns is, in request order,
    the first record of every reply with status 200 and a non-empty list
    (a record without [strMeal] included); every other turn contributes
    nothing, so at most [count] records come back. *)
Theorem fetch_random_meals_spec (replies : nat → reply) (count : nat) :
  (fetch_loop replies count {| fetched := []; slept := 0 |}).1 = inr tt
  ∧ fetch_random_meals replies count
    = omap contributed (replies <$> seq 0 count)
  ∧ (length (fetch_random_meals replies count) ≤ count)%nat.
Proof.
  unfold fetch_random_meals, fetch_loop. rewrite fetch_loop_spec.
  cbn [fst snd fetched app]. split; [done|]. split; [done|].
  etrans; [apply length_omap_le|]. by rewrite length_fmap, length_seq.
Qed.

(** X13: the pause of half a second is taken exactly in the turns whose
    [try] body reaches its end: not after a request that raised, not
    after a 200 reply without a first record, and not after a record
    without [strMeal] or with a name the console cannot show (one that
    holds a surrogate), which is appended all the same. *)
Theorem fetch_sleeps (replies : nat → reply) (count : nat) :
  slept (fetch_loop replies count {| fetched := []; slept := 0 |}).2
  = length (filter (λ r, completed r = true) (replies <$> seq 0 count))
  ∧ ∀ meal rest,
      meal !! str "strMeal" = None
      ∨ (∃ name, meal !! str "strMeal" = Some (PStr name)
                 ∧ encodable name = false) →
      completed (Response 200 (Some (meal :: rest))) = false
      ∧ contributed (Response 200 (Some (meal :: rest))) = Some meal.
Proof.
  split.
  - unfold fetch_loop. by rewrite fetch_loop_spec.
  - intros meal rest Hname. unfold completed, contributed.
    rewrite !bool_decide_eq_true_2 by done.
    by destruct Hname as [->|(name & -> & Hname)].
Qed.

(** ** [main] *)





(** ** No triple is added twice for one record *)

(** Break a membership in (part of) the closed form down to the shape of
    the triple. *)
Ltac shapes H :=
  repeat match type of H with
  | _ ∈ _ ++ _ => apply elem_of_app in H as [H|H]
  | _ ∈ [_] => apply list_elem_of_singleton in H
  | _ ∈ guard _ _ => apply elem_of_guard in H as [_ H]
  | _ ∈ scalar_triples _ _ _ _ =>
      apply elem_of_scalar_triples in H as (? & _ & _ & H)
  | _ ∈ entity_triples _ _ _ _ _ _ =>
      apply elem_of_entity_triples in H as (? & _ & _ & [H|[H|H]])
  | _ ∈ _ ≫= _ => apply elem_of_slots in H as (? & _ & H)
  | _ ∈ slot_triples _ _ _ _ =>
      apply elem_of_slot_triples in H
        as (? & _ & _ & [H | [H | [(? & _ & _ & H) | H]]])
  end.

(** Two shapes of different blocks never give the same triple: the
    predicates differ, or the classes, or the namespaces of the subjects. *)
Ltac clash H1 H2 :=
  rewrite H1 in H2; apply triple_inj in H2 as (Es & Ep & Eo);
  first [ refute Ep | refute Eo
        | apply URIRef_inj in Es; by apply category_ne_cuisine in Es ].

Lemma ingredient_uri_slot_inj (meal_id : pyval) (i j : nat) :
  ingredient_uri meal_id i = ingredient_uri meal_id j → i = j.
Proof.
  unfold ingredient_uri. intros E%URIRef_inj.
  do 3 apply app_inv_head in E. by apply str_of_nat_inj.
Qed.

Lemma NoDup_by_predicate (l : list triple) :
  NoDup (predicate <$> l) → NoDup l.
Proof. apply NoDup_fmap_1. Qed.

Lemma NoDup_for_truthy (v : pyval) (f : pystr → list triple) :
  (∀ s, NoDup (f s)) → NoDup (for_truthy v f).
Proof.
  intros Hf. destruct v as [|s]; simpl; [constructor|].
  destruct (truth s); [done | constructor].
Qed.

Lemma NoDup_slot_triples meal meal_id meal_uri i :
  NoDup (slot_triples meal meal_id meal_uri i).
Proof.
  unfold slot_triples, measure_triples. apply NoDup_for_truthy. intros name.
  destruct (truth (strip name)); [|constructor].
  apply NoDup_by_predicate. rewrite !fmap_app.
  destruct (get meal (str "strMeasure" ++ str_of_nat i)) as [|measure];
    simpl; [closed_decide|].
  destruct (truth measure); [|closed_decide].
  destruct (truth (strip measure)); closed_decide.
Qed.

Lemma NoDup_slots meal meal_id meal_uri :
  NoDup (seq 1 20 ≫= slot_triples meal meal_id meal_uri).
Proof.
  apply NoDup_bind; [|intros; apply NoDup_slot_triples|apply NoDup_seq].
  intros i j t _ _ Hi Hj.
  apply elem_of_slot_triples in Hi
    as (? & _ & _ & [Hi | [Hi | [(? & _ & _ & Hi) | Hi]]]);
  apply elem_of_slot_triples in Hj
    as (? & _ & _ & [Hj | [Hj | [(? & _ & _ & Hj) | Hj]]]);
  rewrite Hi in Hj; apply triple_inj in Hj as (Es & Ep & Eo);
  first [ refute Ep | by apply ingredient_uri_slot_inj in Es
        | by apply ingredient_uri_slot_inj in Eo ].
Qed.

Lemma NoDup_guard (stop : bool) (L : list triple) :
  NoDup L → NoDup (guard stop L).
Proof. destruct stop; [constructor | done]. Qed.

Lemma NoDup_meal_triples (meal : dict) (meal_id : pyval) :
  NoDup (meal_triples meal meal_id).
Proof.
  unfold meal_triples. cbv zeta.
  apply NoDup_app. split; [apply NoDup_singleton|]. split.
  { intros t Hl Hr. shapes Hl; shapes Hr; clash Hl Hr. }
  do 4 (apply NoDup_app; split;
        [apply NoDup_for_truthy; intros; apply NoDup_singleton|];
        split; [intros t Hl Hr; shapes Hl; shapes Hr; clash Hl Hr|]).
  do 2 (apply NoDup_app; split;
        [apply NoDup_guard, NoDup_for_truthy; intros;
         apply NoDup_by_predicate; closed_decide|];
        split; [intros t Hl Hr; shapes Hl; shapes Hr; clash Hl Hr|]).
  apply NoDup_guard, NoDup_slots.
Qed.

(** X15: for every record with an identifier, no two calls of [g.add]
    made for it carry the same triple, so mapping it into an empty store
    leaves as many triples as there were calls. *)
Theorem emitted_NoDup (meal : dict) (meal_id : pyval) :
  meal !! str "idMeal" = Some meal_id →
  NoDup (emitted meal)
  ∧ size (add_meal_to_graph (G:=Graph) meal ∅).2 = length (emitted meal).
Proof.
  intros Hid.
  assert (Hnd : NoDup (emitted meal)).
  { rewrite (emitted_eq _ _ Hid). apply NoDup_meal_triples. }
  split; [done|].
  rewrite add_meal_to_graph_graph. cbn [snd].
  rewrite (left_id_L ∅ (∪)). by apply size_list_to_set.
Qed.

Lemma emitted_NoDup_witness :
  NoDup (emitted salted_fish)
  ∧ size (add_meal_to_graph (G:=Graph) salted_fish ∅).2
    = length (emitted salted_fish).
Proof. apply (emitted_NoDup salted_fish (PStr (str "52944"))). reflexivity. Defined.

Lemma fetch_sleeps_witness :
  let unnamed : dict := {[ str "strMeal" := PStr [0xD800] ]} in
  slept (fetch_loop one_good_reply 3 {| fetched := []; slept := 0 |}).2
  = length (filter (λ r, completed r = true) (one_good_reply <$> seq 0 3))
  ∧ (completed (Response 200 (Some [salted_fish])) = false
     ∧ contributed (Response 200 (Some [salted_fish])) = Some salted_fish)
  ∧ (completed (Response 200 (Some [unnamed])) = false
     ∧ contributed (Response 200 (Some [unnamed])) = Some unnamed).
Proof.
  intros unnamed.
  destruct (fetch_sleeps one_good_reply 3) as [Hslept Hkept].
  split; [exact Hslept|]. split; apply Hkept.
  - left. reflexivity.
  - right. exists [0xD800]. split; reflexivity.
Defined.

(** ** The visualisation reads the graph *)

Example last_segment_ex :
  last_segment HASH (last_segment SLASH (node_str RDFS_label)) = str "label"
  ∧ last_segment HASH (last_segment SLASH (str "a/b/")) = []
  ∧ last_segment SLASH (str "plain") = str "plain".
Proof. repeat split; reflexivity. Qed.

Example contains_ex :
  contains MEAL (str "http://example.org/meal/52874") = true
  ∧ contains MEAL (str "http://example.org/category/Beef") = false
  ∧ contains (str "ef") (str "Beef") = true.
Proof. repeat split; reflexivity. Qed.

Lemma starts_with_app (ns x : pystr) : starts_with ns (ns ++ x) = true.
Proof.
  induction ns as [|c ns IH]; [done|]. simpl. by rewrite N.eqb_refl.
Qed.

Lemma starts_with_spec (needle hay : pystr) :
  starts_with needle hay = true → ∃ post, hay = needle ++ post.
Proof.
  revert hay. induction needle as [|c needle IH]; intros hay.
  - by exists hay.
  - destruct hay as [|d hay]; simpl; [done|].
    intros [->%N.eqb_eq [post ->]%IH]%andb_true_iff. by exists post.
Qed.

Lemma contains_unfold (needle hay : pystr) :
  contains needle hay
  = starts_with needle hay
    || match hay with [] => false | _ :: hay' => contains needle hay' end.
Proof. by destruct hay. Qed.

Lemma contains_prefix (ns x : pystr) : contains ns (ns ++ x) = true.
Proof. by rewrite contains_unfold, starts_with_app. Qed.

Lemma contains_spec (needle hay : pystr) :
  contains needle hay = true → ∃ pre post, hay = pre ++ needle ++ post.
Proof.
  induction hay as [|d hay IH]; rewrite contains_unfold.
  - rewrite orb_false_r. intros [post ->]%starts_with_spec. by exists [], post.
  - intros [[post ->]%starts_with_spec|(pre & post & ->)%IH]%orb_true_iff.
    + by exists [], post.
    + by exists (d :: pre), post.
Qed.

(** A character that occurs once in a string splits it in one way only. *)
Lemma unique_separator (c : N) (a p b q : pystr) :
  c ∉ a → c ∉ p → a ++ c :: p = b ++ c :: q → a = b ∧ p = q.
Proof.
  revert b. induction a as [|x a IH]; intros [|y b] Ha Hp E; simpl in E.
  - by injection E.
  - injection E as <- ->. destruct Hp. apply elem_of_app. right. by left.
  - injection E as -> _. by apply not_elem_of_cons in Ha as [[] _].
  - injection E as -> E. apply not_elem_of_cons in Ha as [_ Ha].
    destruct (IH b Ha Hp E) as [-> ->]. done.
Qed.

(** A namespace does not occur inside a URI of another namespace whose
    local part has no colon: the only ["http:"] is the one in front. *)
Lemma not_contains_namespace (T T' q : pystr) :
  COLON ∉ T' → COLON ∉ q →
  (∀ post, T' ++ q ≠ T ++ post) →
  contains (str "http" ++ COLON :: T) (str "http" ++ COLON :: T' ++ q) = false.
Proof.
  intros HT' Hq Hne.
  destruct (contains _ _) eqn:Hc; [|done].
  apply contains_spec in Hc as (pre & post & E).
  rewrite <- (app_assoc _ (COLON :: T) post), (app_assoc pre) in E.
  rewrite <- app_comm_cons in E.
  apply unique_separator in E as [_ E].
  - by apply Hne in E.
  - apply (bool_decide_unpack _). by vm_compute.
  - intros [?|?]%elem_of_app; auto.
Qed.

(** Show that the namespace [needle] does not occur in [ns ++ q], given
    a hypothesis that [q] has no colon. *)
Ltac foreign needle_tail ns_tail q :=
  lazymatch goal with
  | |- contains ?needle (?ns ++ q) = false =>
      change needle with (str "http" ++ COLON :: needle_tail);
      change (ns ++ q) with (str "http" ++ COLON :: ns_tail ++ q);
      apply not_contains_namespace;
      [ apply (bool_decide_unpack _); by vm_compute
      | done
      | let post := fresh in let E := fresh in
        intros post E; vm_compute in E; discriminate E ]
  end.

Lemma meal_not_in_category (q : pystr) :
  COLON ∉ q → contains MEAL (CATEGORY ++ q) = false.
Proof.
  intros Hq. foreign (str "//example.org/meal/") (str "//example.org/category/") q.
Qed.

Lemma meal_not_in_cuisine (q : pystr) :
  COLON ∉ q → contains MEAL (CUISINE ++ q) = false.
Proof.
  intros Hq. foreign (str "//example.org/meal/") (str "//example.org/cuisine/") q.
Qed.

Lemma meal_not_in_ingredient (q : pystr) :
  COLON ∉ q → contains MEAL (INGREDIENT ++ q) = false.
Proof.
  intros Hq.
  foreign (str "//example.org/meal/") (str "//example.org/ingredient/") q.
Qed.

Lemma category_not_in_cuisine (q : pystr) :
  COLON ∉ q → contains CATEGORY (CUISINE ++ q) = false.
Proof.
  intros Hq.
  foreign (str "//example.org/category/") (str "//example.org/cuisine/") q.
Qed.

Lemma category_not_in_ingredient (q : pystr) :
  COLON ∉ q → contains CATEGORY (INGREDIENT ++ q) = false.
Proof.
  intros Hq.
  foreign (str "//example.org/category/") (str "//example.org/ingredient/") q.
Qed.

Lemma cuisine_not_in_ingredient (q : pystr) :
  COLON ∉ q → contains CUISINE (INGREDIENT ++ q) = false.
Proof.
  intros Hq.
  foreign (str "//example.org/cuisine/") (str "//example.org/ingredient/") q.
Qed.

Lemma subject_kind_meal (x : pystr) :
  subject_kind (MEAL ++ x) = Some "meal"%string.
Proof. unfold subject_kind. by rewrite contains_prefix. Qed.

Lemma kind_category (q : pystr) :
  COLON ∉ q →
  subject_kind (CATEGORY ++ q) = Some "category"%string
  ∧ object_kind (CATEGORY ++ q) = Some "category"%string.
Proof.
  intros Hq. unfold subject_kind, object_kind.
  by rewrite meal_not_in_category, contains_prefix.
Qed.

Lemma kind_cuisine (q : pystr) :
  COLON ∉ q →
  subject_kind (CUISINE ++ q) = Some "cuisine"%string
  ∧ object_kind (CUISINE ++ q) = Some "cuisine"%string.
Proof.
  intros Hq. unfold subject_kind, object_kind.
  by rewrite meal_not_in_cuisine, category_not_in_cuisine, contains_prefix.
Qed.

Lemma kind_ingredient (q : pystr) :
  COLON ∉ q →
  subject_kind (INGREDIENT ++ q) = Some "ingredient"%string
  ∧ object_kind (INGREDIENT ++ q) = Some "ingredient"%string.
Proof.
  intros Hq. unfold subject_kind, object_kind.
  by rewrite meal_not_in_ingredient, category_not_in_ingredient,
    cuisine_not_in_ingredient, contains_prefix.
Qed.

(** An object in one of the three entity namespaces always gets a kind,
    whatever its local part is. *)
Lemma object_kind_is_Some (ns x : pystr) :
  ns ∈ [CATEGORY; CUISINE; INGREDIENT] → is_Some (object_kind (ns ++ x)).
Proof.
  intros Hns. unfold object_kind.
  destruct (contains CATEGORY (ns ++ x)) eqn:H1; [by eexists|].
  destruct (contains CUISINE (ns ++ x)) eqn:H2; [by eexists|].
  destruct (contains INGREDIENT (ns ++ x)) eqn:H3; [by eexists|].
  exfalso.
  apply elem_of_cons in Hns as [->|Hns];
    [by rewrite contains_prefix in H1|].
  apply elem_of_cons in Hns as [->|Hns];
    [by rewrite contains_prefix in H2|].
  apply list_elem_of_singleton in Hns as ->.
  by rewrite contains_prefix in H3.
Qed.

Lemma safe_name_no_colon (v : pystr) : wf_str v → COLON ∉ safe_name v.
Proof.
  intros Hv Hin. pose proof (safe_name_alphabet v Hv) as Hchars.
  rewrite Forall_forall in Hchars.
  destruct (Hchars _ Hin) as [[Hsafe|Hpct] _]; [|done].
  apply is_safe_spec in Hsafe. unfold COLON in Hsafe. lia.
Qed.

Lemma nodes_of_add_type (kind k : string) (x n : pystr) (st : viz_state) :
  x ∈ nodes_of kind (add_type k n st)
  ↔ (k = kind ∧ x = n) ∨ x ∈ nodes_of kind st.
Proof.
  unfold nodes_of, add_type. cbn [node_types].
  destruct (decide (k = kind)) as [->|Hne].
  - rewrite lookup_insert_eq. simpl. rewrite elem_of_union, elem_of_singleton.
    naive_solver.
  - rewrite lookup_insert_ne by done. naive_solver.
Qed.

Lemma viz_loop_snoc (ts : list triple) (t : triple) :
  viz_loop (ts ++ [t]) = viz_step (viz_loop ts) t.
Proof. unfold viz_loop. by rewrite foldl_app. Qed.

Lemma viz_step_nodes (kind : string) (x : pystr) (st : viz_state) (t : triple) :
  x ∈ nodes_of kind (viz_step st t)
  ↔ x ∈ nodes_of kind st ∨ type_source kind x t.
Proof.
  destruct t as [[s p] o]. unfold viz_step, type_source.
  cbn [subject predicate object fst snd].
  set (st' := match subject_kind (node_str s) with
              | Some k => add_type k (node_str s) st
              | None => st
              end).
  assert (Hst' : x ∈ nodes_of kind st'
                 ↔ x ∈ nodes_of kind st
                   ∨ (subject_kind (node_str s) = Some kind
                      ∧ x = node_str s)).
  { unfold st'. destruct (subject_kind (node_str s)) as [k|].
    - rewrite nodes_of_add_type. naive_solver.
    - naive_solver. }
  destruct (decide (p ∈ [RDF_type; RDFS_label])) as [Hp|Hp];
    [rewrite !(bool_decide_eq_true_2 _ Hp), Hst'; naive_solver
    |rewrite !(bool_decide_eq_false_2 _ Hp)].
  destruct o as [u|l].
  - cbn [node_str]. destruct (object_kind u) as [k|] eqn:Hk.
    + change (nodes_of kind (add_edge (node_str s) u _ (add_type k u st')))
        with (nodes_of kind (add_type k u st')).
      rewrite nodes_of_add_type, Hst'. naive_solver.
    + rewrite Hst'. naive_solver.
  - case_bool_decide; rewrite <- ?Hst'.
    + change (nodes_of kind (set_label _ _ st')) with (nodes_of kind st').
      rewrite Hst'. naive_solver.
    + rewrite Hst'. naive_solver.
Qed.

Lemma viz_loop_nodes (kind : string) (x : pystr) (ts : list triple) :
  x ∈ nodes_of kind (viz_loop ts) ↔ ∃ t, t ∈ ts ∧ type_source kind x t.
Proof.
  induction ts as [|t ts IH] using rev_ind.
  - unfold viz_loop, nodes_of. simpl. rewrite lookup_empty. simpl.
    split; [by intros ?%not_elem_of_empty | by intros (? & ?%elem_of_nil & _)].
  - rewrite viz_loop_snoc, viz_step_nodes, IH. split.
    + intros [(t' & Ht' & Hsrc)|Hsrc].
      * exists t'. split; [|done]. apply elem_of_app. by left.
      * exists t. split; [|done]. apply elem_of_app. right. by left.
    + intros (t' & [Ht'|Ht']%elem_of_app & Hsrc).
      * left. by exists t'.
      * apply list_elem_of_singleton in Ht' as ->. by right.
Qed.

Lemma viz_step_edges (u v l : pystr) (st : viz_state) (t : triple) :
  (edges (viz_step st t) !! (u, v) = Some l →
   edges st !! (u, v) = Some l ∨ edge_source u v l t)
  ∧ (is_Some (edges st !! (u, v)) →
     is_Some (edges (viz_step st t) !! (u, v)))
  ∧ (edge_source u v l t → edges (viz_step st t) !! (u, v) = Some l).
Proof.
  destruct t as [[s p] o]. unfold viz_step, edge_source.
  cbn [subject predicate object fst snd].
  set (st' := match subject_kind (node_str s) with
              | Some k => add_type k (node_str s) st
              | None => st
              end).
  assert (Hst' : edges st' = edges st).
  { unfold st'. by destruct (subject_kind (node_str s)). }
  destruct (decide (p ∈ [RDF_type; RDFS_label])) as [Hp|Hp];
    [rewrite !(bool_decide_eq_true_2 _ Hp), Hst'; naive_solver
    |rewrite !(bool_decide_eq_false_2 _ Hp)].
  destruct o as [o|lit]; cbn [node_str].
  - destruct (object_kind o) as [k|] eqn:Hk.
    + cbn [edges add_edge add_type]. rewrite Hst'.
      destruct (decide ((node_str s, o) = (u, v))) as [[= <- <-]|Hne].
      * rewrite lookup_insert_eq. split; [|split].
        -- intros [= <-]. right. by eauto 10.
        -- by eexists.
        -- by intros (_ & _ & _ & _ & _ & ->).
      * rewrite lookup_insert_ne by done. split; [by left|]. split; [done|].
        intros (_ & _ & _ & -> & -> & _). by destruct Hne.
    + rewrite Hst'. split; [by left|]. split; [done|].
      by intros (_ & _ & [? ?] & _).
  - assert (Hlit : ∀ st0 : viz_state,
      edges (if bool_decide
                  (last_segment HASH (last_segment SLASH (node_str p))
                   ∈ [str "hasName"; str "label"; str "ingredientName"])
             then set_label (node_str s) (take 20 lit) st0 else st0)
      = edges st0) by (intros; by case_bool_decide).
    rewrite Hlit, Hst'. split; [by left|]. split; [done|].
    by intros (_ & [? ?] & _).
Qed.

Lemma viz_loop_edges (u v l : pystr) (ts : list triple) :
  (edges (viz_loop ts) !! (u, v) = Some l →
   ∃ t, t ∈ ts ∧ edge_source u v l t)
  ∧ ((∃ t, t ∈ ts ∧ edge_source u v l t) →
     is_Some (edges (viz_loop ts) !! (u, v))).
Proof.
  induction ts as [|t ts [IH1 IH2]] using rev_ind.
  - unfold viz_loop. cbn [foldl edges].
    split; [by rewrite lookup_empty | by intros (? & ?%elem_of_nil & _)].
  - rewrite viz_loop_snoc.
    destruct (viz_step_edges u v l (viz_loop ts) t) as (Hinv & Hkeep & Hadd).
    split.
    + intros [(t' & Ht' & Hsrc)%IH1|Hsrc]%Hinv.
      * exists t'. split; [|done]. apply elem_of_app. by left.
      * exists t. split; [|done]. apply elem_of_app. right. by left.
    + intros (t' & [Ht'|Ht']%elem_of_app & Hsrc).
      * apply Hkeep, IH2. by exists t'.
      * apply list_elem_of_singleton in Ht' as ->. rewrite Hadd by done.
        by eexists.
Qed.

Lemma viz_step_labels (x l : pystr) (st : viz_state) (t : triple) :
  node_labels (viz_step st t) !! x = Some l →
  node_labels st !! x = Some l ∨ label_source x l t.
Proof.
  destruct t as [[s p] o]. unfold viz_step, label_source.
  cbn [subject predicate object fst snd].
  set (st' := match subject_kind (node_str s) with
              | Some k => add_type k (node_str s) st
              | None => st
              end).
  assert (Hst' : node_labels st' = node_labels st).
  { unfold st'. by destruct (subject_kind (node_str s)). }
  destruct (decide (p ∈ [RDF_type; RDFS_label])) as [Hp|Hp];
    [rewrite !(bool_decide_eq_true_2 _ Hp), Hst'; by left
    |rewrite !(bool_decide_eq_false_2 _ Hp)].
  destruct o as [o|lit]; cbn [node_str].
  - destruct (object_kind o); cbn [node_labels add_edge add_type];
      rewrite ?Hst'; by left.
  - case_bool_decide as Hl; [|rewrite Hst'; by left].
    cbn [node_labels set_label]. rewrite Hst'.
    destruct (decide (node_str s = x)) as [<-|Hne].
    + rewrite lookup_insert_eq. intros [= <-]. right. by eauto 10.
    + rewrite lookup_insert_ne by done. by left.
Qed.

Lemma viz_loop_labels (x l : pystr) (ts : list triple) :
  node_labels (viz_loop ts) !! x = Some l →
  ∃ t, t ∈ ts ∧ label_source x l t.
Proof.
  induction ts as [|t ts IH] using rev_ind.
  - unfold viz_loop. cbn [foldl node_labels]. by rewrite lookup_empty.
  - rewrite viz_loop_snoc.
    intros [(t' & Ht' & Hsrc)%IH|Hsrc]%viz_step_labels.
    + exists t'. split; [|done]. apply elem_of_app. by left.
    + exists t. split; [|done]. apply elem_of_app. right. by left.
Qed.

(** The triples of a mapped graph that the loop can turn into an edge:
    the relations from a meal to its category, cuisine and ingredients. *)
Lemma relation_triples_inv (meal : dict) (meal_id : pyval) (s p o : node) :
  mapper_triple meal meal_id (s, p, o) →
  p ∉ [RDF_type; RDFS_label] → (∃ x, o = URIRef x) →
  s = term_of MEAL meal_id
  ∧ ∃ relation ns x,
      relation ∈ relations ∧ ns ∈ [CATEGORY; CUISINE; INGREDIENT]
      ∧ p = term RECIPE (str relation) ∧ o = URIRef (ns ++ x).
Proof.
  intros Ht Hp [x Ho].
  remember (s, p, o) as t eqn:Et.
  destruct Ht as
    [ | key property v Hf Hv Ht
      | key ns class relation v Hk Hv Ht Hr Hc
      | key ns class relation v Hk Hv Ht Hr Hc
      | key ns class relation v Hk Hv Ht Hr Hc
      | i name Hi Hn Hs Hst | i name Hi Hn Hs Hst
      | i name measure Hi Hn Hs Hm Hms Hst | i name Hi Hn Hs Hst ];
    apply triple_inj in Et as (Es & Ep & Eo); subst s p o;
    try discriminate Ho;
    try (destruct Hp; apply elem_of_cons; by auto);
    try (destruct Hp; apply elem_of_cons; right; by left).
  - split; [done|]. exists relation, ns, (safe_name v).
    destruct_kind Hk; repeat split; closed_decide.
  - split; [done|].
    exists "hasIngredient"%string, INGREDIENT,
      (format meal_id ++ str "_ingredient_" ++ str_of_nat i).
    repeat split; closed_decide.
Qed.

(** X16: for a graph built from records with identifiers, the edges of
    the drawing are exactly the belongsToCategory, belongsToCuisine and
    hasIngredient triples, whatever the order in which the graph is read;
    type, label and literal-valued triples never become edges, and each
    edge is labelled with the name of a relation. *)
Theorem edges_are_relations (meals : list dict) (ts : list triple) :
  Forall (λ meal, is_Some (meal !! str "idMeal")) meals →
  (∀ t, t ∈ ts ↔ t ∈ (add_meals (G:=Graph) meals ∅).2) →
  ∀ u v,
    (is_Some (edges (viz_loop ts) !! (u, v))
     ↔ ∃ relation, relation ∈ relations
         ∧ (URIRef u, term RECIPE (str relation), URIRef v)
           ∈ (add_meals (G:=Graph) meals ∅).2)
    ∧ (∀ l, edges (viz_loop ts) !! (u, v) = Some l →
            l ∈ str <$> relations).
Proof.
  intros Hids Hts u v.
  assert (Hinv : ∀ l, edges (viz_loop ts) !! (u, v) = Some l →
    ∃ relation, relation ∈ relations ∧ l = str relation
      ∧ (URIRef u, term RECIPE (str relation), URIRef v)
        ∈ (add_meals (G:=Graph) meals ∅).2).
  { intros l Hl. apply viz_loop_edges in Hl as ([[s p] o] & Ht & Hsrc).
    destruct Hsrc as (Hp & Ho & _ & -> & -> & ->).
    cbn [subject predicate object fst snd] in *.
    apply Hts in Ht. pose proof Ht as Hin.
    apply store_triple_inv in Ht as (meal & meal_id & _ & _ & Ht).
    apply relation_triples_inv in Ht
      as (-> & relation & ns & x & Hrel & _ & -> & ->); [|done..].
    exists relation. split; [done|]. split; [|done].
    unfold relations in Hrel.
    repeat (apply elem_of_cons in Hrel as [->|Hrel]; [reflexivity|]).
    by apply elem_of_nil in Hrel. }
  split; [split|].
  - intros [l Hl]. apply Hinv in Hl as (relation & Hrel & _ & Hin).
    by exists relation.
  - intros (relation & Hrel & Hin).
    apply (viz_loop_edges u v
             (last_segment HASH (last_segment SLASH
                (node_str (term RECIPE (str relation)))))).
    exists (URIRef u, term RECIPE (str relation), URIRef v).
    split; [by apply Hts|].
    pose proof Hin as Ht.
    apply store_triple_inv in Ht as (meal & meal_id & _ & _ & Ht).
    assert (Hp : term RECIPE (str relation) ∉ [RDF_type; RDFS_label]).
    { unfold relations in Hrel.
      repeat (apply elem_of_cons in Hrel as [->|Hrel]; [closed_decide|]).
      by apply elem_of_nil in Hrel. }
    apply relation_triples_inv in Ht
      as (_ & _ & ns & x & _ & Hns & _ & [= ->]); [|done|by eexists].
    unfold edge_source. cbn [subject predicate object fst snd node_str].
    split; [done|]. split; [by eexists|].
    split; [by apply object_kind_is_Some | done].
  - intros l Hl. apply Hinv in Hl as (relation & Hrel & -> & _).
    by apply list_elem_of_fmap_2.
Qed.

Lemma edges_are_relations_witness :
  let ts := elements (add_meals (G:=Graph) [beef_stew] ∅).2 in
  let u := str "http://example.org/meal/52874" in
  let v := str "http://example.org/category/Beef" in
  (is_Some (edges (viz_loop ts) !! (u, v))
   ↔ ∃ relation, relation ∈ relations
       ∧ (URIRef u, term RECIPE (str relation), URIRef v)
         ∈ (add_meals (G:=Graph) [beef_stew] ∅).2)
  ∧ (∀ l, edges (viz_loop ts) !! (u, v) = Some l → l ∈ str <$> relations).
Proof.
  intros ts u v. apply (edges_are_relations [beef_stew] ts).
  - repeat constructor. eexists. reflexivity.
  - intros t. apply elem_of_elements.
Defined.

Lemma meal_ne_category (x y : pystr) : MEAL ++ x ≠ CATEGORY ++ y.
Proof. intros E. vm_compute in E. discriminate E. Qed.

Lemma meal_ne_cuisine (x y : pystr) : MEAL ++ x ≠ CUISINE ++ y.
Proof. intros E. vm_compute in E. discriminate E. Qed.

(** The triples of a mapped graph with a literal object that are neither
    type nor label triples hang on a meal or on an ingredient. *)
Lemma literal_triples_inv (meal : dict) (meal_id : pyval) (s p o : node) :
  mapper_triple meal meal_id (s, p, o) →
  p ∉ [RDF_type; RDFS_label] → (∃ lit, o = Literal lit) →
  ∃ x, node_str s = MEAL ++ x ∨ node_str s = INGREDIENT ++ x.
Proof.
  intros Ht Hp [lit Ho].
  remember (s, p, o) as t eqn:Et.
  destruct Ht as
    [ | key property v Hf Hv Ht
      | key ns class relation v Hk Hv Ht Hr Hc
      | key ns class relation v Hk Hv Ht Hr Hc
      | key ns class relation v Hk Hv Ht Hr Hc
      | i name Hi Hn Hs Hst | i name Hi Hn Hs Hst
      | i name measure Hi Hn Hs Hm Hms Hst | i name Hi Hn Hs Hst ];
    apply triple_inj in Et as (Es & Ep & Eo); subst s p o;
    try discriminate Ho;
    try (destruct Hp; apply elem_of_cons; by auto);
    try (destruct Hp; apply elem_of_cons; right; by left);
    try (eexists; left; reflexivity);
    try (eexists; right; reflexivity).
Qed.

(** X17: the drawing never labels a category or cuisine node with its
    [rdfs:label]: label triples are skipped before labels are collected,
    so when the loop of [main] has mapped every record to its end, the
    node of a record's category or cuisine has no entry in [node_labels]
    and is shown with the last segment of its URI, cut to 15
    characters. *)
Theorem entity_nodes_show_uri (meals : list dict) (ts : list triple)
    (meal : dict) (key : string) (ns : pystr) (class relation : string)
    (v : pystr) :
  (add_meals (G:=Graph) meals ∅).1 = inr tt →
  (∀ t, t ∈ ts ↔ t ∈ (add_meals (G:=Graph) meals ∅).2) →
  meal ∈ meals → (key, ns, class, relation) ∈ entity_kinds →
  get meal (str key) = PStr v → truth v = true → wf_str v →
  ∃ identifier,
    safe_value v = inr identifier
    ∧ let node := ns ++ identifier in
      node_labels (viz_loop ts) !! node = None
      ∧ label_nodes (viz_loop ts) node
        = Some (take 15 (last_segment SLASH node)).
Proof.
  intros Hrun Hts Hm Hk Hv Htv Hwf.
  pose proof Hrun as Hall. apply add_meals_returns in Hall.
  rewrite Forall_forall in Hall. pose proof (Hall _ Hm) as Hout.
  destruct (proj1 (outcome_inr meal) Hout) as [[meal_id Hid] _].
  destruct (mapped_entity _ _ _ _ _ _ _ Hid Hout Hk Hv Htv)
    as (Hsv & _ & _ & _ & Hrel).
  exists (safe_name v). split; [done|]. intros node.
  assert (Hnone : node_labels (viz_loop ts) !! node = None).
  { destruct (node_labels (viz_loop ts) !! node) as [l|] eqn:Hl; [|done].
    exfalso. apply viz_loop_labels in Hl as ([[s p] o] & Ht & Hsrc).
    destruct Hsrc as (Hp & (lit & Ho & _) & _ & Hs).
    cbn [subject predicate object fst snd] in *.
    apply Hts, store_triple_inv in Ht
      as (meal' & meal_id' & _ & _ & Ht).
    apply literal_triples_inv in Ht as [x Hx]; [|done|by eexists].
    rewrite <- Hs in Hx. unfold node in Hx.
    destruct_kind Hk; destruct Hx as [Hx|Hx]; symmetry in Hx.
    - by apply meal_ne_category in Hx.
    - by apply ingredient_ne_category in Hx.
    - by apply meal_ne_cuisine in Hx.
    - by apply ingredient_ne_cuisine in Hx. }
  split; [done|]. subst node. unfold label_nodes.
  case_bool_decide as Hnode.
  { exact (f_equal (λ o : option pystr,
             Some (default (take 15 (last_segment SLASH (ns ++ safe_name v)))
                           o)) Hnone). }
  destruct Hnode.
  assert (Hin : (term_of MEAL meal_id, term RECIPE (str relation),
                 term ns (safe_name v)) ∈ ts).
  { apply Hts. by eapply mapped_triple_in_store. }
  pose proof (safe_name_no_colon v Hwf) as Hcolon.
  apply elem_of_union.
  destruct_kind Hk; [left|right]; apply viz_loop_nodes;
    eexists; (split; [exact Hin|]); right;
    cbn [subject predicate object fst snd node_str term];
    (split; [closed_decide|]); (split; [by eexists|]).
  - split; [by apply kind_category | done].
  - split; [by apply kind_cuisine | done].
Qed.

Lemma entity_nodes_show_uri_witness :
  let ts := elements (add_meals (G:=Graph) [beef_stew] ∅).2 in
  ∃ identifier,
    safe_value (str "Beef") = inr identifier
    ∧ let node := CATEGORY ++ identifier in
      node_labels (viz_loop ts) !! node = None
      ∧ label_nodes (viz_loop ts) node
        = Some (take 15 (last_segment SLASH node)).
Proof.
  intros ts.
  apply (entity_nodes_show_uri [beef_stew] ts beef_stew
           "strCategory" CATEGORY "Category" "belongsToCategory" (str "Beef")).
  - reflexivity.
  - intros t. apply elem_of_elements.
  - apply elem_of_cons. left. reflexivity.
  - apply elem_of_cons. left. reflexivity.
  - reflexivity.
  - reflexivity.
  - apply (bool_decide_unpack _). vm_compute. exact I.
Defined.

Lemma digits_no_colon d : COLON ∉ digits d.
Proof.
  induction d; simpl; [apply not_elem_of_nil|..];
    (apply not_elem_of_cons; split; [by vm_compute | done]).
Qed.

Lemma ingredient_local_no_colon (meal_id : pyval) (i : nat) :
  (∀ id, meal_id = PStr id → COLON ∉ id) →
  COLON ∉ format meal_id ++ str "_ingredient_" ++ str_of_nat i.
Proof.
  intros Hid. rewrite !not_elem_of_app. split; [|split].
  - destruct meal_id as [|id]; [closed_decide | by apply Hid].
  - closed_decide.
  - apply digits_no_colon.
Qed.

Lemma kind_table_inj (k k' c c' : string) :
  (k, c) ∈ kind_table → (k', c') ∈ kind_table →
  k = k' ∨ term RECIPE (str c) = term RECIPE (str c') →
  k = k' ∧ c = c'.
Proof.
  unfold kind_table. intros H H' E.
  repeat (apply elem_of_cons in H as [[= -> ->]|H]);
    [..|by apply elem_of_nil in H];
  (repeat (apply elem_of_cons in H' as [[= -> ->]|H']);
    [..|by apply elem_of_nil in H']);
  try done;
  destruct E as [E|E]; first [discriminate E | refute E].
Qed.

(** The subject of every triple a plain record adds is an entity of the
    record: the loop finds its kind, and the record types it with the
    class of that kind (the class in the triple, for a type triple). *)
Lemma subject_typed (meal : dict) (meal_id : pyval) (s p o : node) :
  plain_record meal → meal !! str "idMeal" = Some meal_id →
  mapper_triple meal meal_id (s, p, o) →
  ∃ k class,
    (k, class) ∈ kind_table
    ∧ subject_kind (node_str s) = Some k
    ∧ (∃ x, s = URIRef x)
    ∧ mapper_triple meal meal_id (s, RDF_type, term RECIPE (str class))
    ∧ (p = RDF_type → o = term RECIPE (str class)).
Proof.
  intros (Hplain & Hcat & Harea) Hid Ht.
  assert (Hcolon : ∀ id, meal_id = PStr id → COLON ∉ id).
  { intros id ->. by apply Hplain. }
  assert (Hmeal : ∀ p' o' : node, (p' = RDF_type → o' = term RECIPE (str "Meal")) →
    ∃ k class,
      (k, class) ∈ kind_table
      ∧ subject_kind (node_str (term_of MEAL meal_id)) = Some k
      ∧ (∃ x, term_of MEAL meal_id = URIRef x)
      ∧ mapper_triple meal meal_id
          (term_of MEAL meal_id, RDF_type, term RECIPE (str class))
      ∧ (p' = RDF_type → o' = term RECIPE (str class))).
  { intros p' o' Hp'. exists "meal"%string, "Meal"%string.
    split; [closed_decide|]. split; [apply subject_kind_meal|].
    split; [by eexists|]. split; [constructor | done]. }
  assert (Hentity : ∀ (key : string) (ns : pystr) (class relation : string)
      (v : pystr) (p' o' : node),
    (key, ns, class, relation) ∈ entity_kinds →
    get meal (str key) = PStr v → truth v = true →
    raises meal key = false → raises meal "strCategory" = false →
    (p' = RDF_type → o' = term RECIPE (str class)) →
    ∃ k class',
      (k, class') ∈ kind_table
      ∧ subject_kind (node_str (term ns (safe_name v))) = Some k
      ∧ (∃ x, term ns (safe_name v) = URIRef x)
      ∧ mapper_triple meal meal_id
          (term ns (safe_name v), RDF_type, term RECIPE (str class'))
      ∧ (p' = RDF_type → o' = term RECIPE (str class'))).
  { intros key ns class relation v p' o' Hk Hv Htv Hr Hc Hp'.
    pose proof Hk as Hk'. destruct_kind Hk'.
    - exists "category"%string, "Category"%string.
      split; [closed_decide|].
      split; [by apply (proj1 (kind_category _ (safe_name_no_colon _ (Hcat _ Hv))))|].
      split; [by eexists|]. split; [by eapply mt_entity_type | done].
    - exists "cuisine"%string, "Cuisine"%string.
      split; [closed_decide|].
      split; [by apply (proj1 (kind_cuisine _ (safe_name_no_colon _ (Harea _ Hv))))|].
      split; [by eexists|]. split; [by eapply mt_entity_type | done]. }
  assert (Hslot : ∀ (i : nat) (name : pystr) (p' o' : node),
    (1 ≤ i ≤ 20)%nat →
    get meal (str "strIngredient" ++ str_of_nat i) = PStr name →
    truth (strip name) = true → stops meal = false →
    (p' = RDF_type → o' = term RECIPE (str "Ingredient")) →
    ∃ k class,
      (k, class) ∈ kind_table
      ∧ subject_kind (node_str (ingredient_uri meal_id i)) = Some k
      ∧ (∃ x, ingredient_uri meal_id i = URIRef x)
      ∧ mapper_triple meal meal_id
          (ingredient_uri meal_id i, RDF_type, term RECIPE (str class))
      ∧ (p' = RDF_type → o' = term RECIPE (str class))).
  { intros i name p' o' Hi Hn Hs Hst Hp'.
    exists "ingredient"%string, "Ingredient"%string.
    split; [closed_decide|].
    split; [apply (proj1 (kind_ingredient _
              (ingredient_local_no_colon meal_id i Hcolon)))|].
    split; [by eexists|]. split; [by eapply mt_slot_type | done]. }
  remember (s, p, o) as t eqn:Et.
  destruct Ht as
    [ | key property v Hf Hv Ht
      | key ns class relation v Hk Hv Ht Hr Hc
      | key ns class relation v Hk Hv Ht Hr Hc
      | key ns class relation v Hk Hv Ht Hr Hc
      | i name Hi Hn Hs Hst | i name Hi Hn Hs Hst
      | i name measure Hi Hn Hs Hm Hms Hst | i name Hi Hn Hs Hst ];
    apply triple_inj in Et as (<- & <- & <-).
  - by apply Hmeal.
  - apply Hmeal. intros E. destruct_scalar Hf; refute E.
  - by eapply Hentity.
  - eapply Hentity; [done..|]. intros E. refute E.
  - apply Hmeal. intros E. destruct_kind Hk; refute E.
  - by eapply Hslot.
  - eapply Hslot; [done..|]. intros E. refute E.
  - eapply Hslot; [done..|]. intros E. refute E.
  - apply Hmeal. intros E. refute E.
Qed.

(** The object of a relation is an entity of the record as well. *)
Lemma object_typed (meal : dict) (meal_id : pyval) (s p o : node) :
  plain_record meal → meal !! str "idMeal" = Some meal_id →
  mapper_triple meal meal_id (s, p, o) →
  p ∉ [RDF_type; RDFS_label] → (∃ x, o = URIRef x) →
  ∃ k class,
    (k, class) ∈ kind_table
    ∧ object_kind (node_str o) = Some k
    ∧ mapper_triple meal meal_id (o, RDF_type, term RECIPE (str class)).
Proof.
  intros (Hplain & Hcat & Harea) Hid Ht Hp [x Ho].
  assert (Hcolon : ∀ id, meal_id = PStr id → COLON ∉ id).
  { intros id ->. by apply Hplain. }
  remember (s, p, o) as t eqn:Et.
  destruct Ht as
    [ | key property v Hf Hv Ht
      | key ns class relation v Hk Hv Ht Hr Hc
      | key ns class relation v Hk Hv Ht Hr Hc
      | key ns class relation v Hk Hv Ht Hr Hc
      | i name Hi Hn Hs Hst | i name Hi Hn Hs Hst
      | i name measure Hi Hn Hs Hm Hms Hst | i name Hi Hn Hs Hst ];
    apply triple_inj in Et as (Es & Ep & Eo); subst s p o;
    try discriminate Ho;
    try (destruct Hp; apply elem_of_cons; by auto);
    try (destruct Hp; apply elem_of_cons; right; by left).
  - pose proof Hk as Hk'. destruct_kind Hk'.
    + exists "category"%string, "Category"%string.
      split; [closed_decide|].
      split; [by apply (proj2 (kind_category _ (safe_name_no_colon _ (Hcat _ Hv))))|].
      by eapply mt_entity_type.
    + exists "cuisine"%string, "Cuisine"%string.
      split; [closed_decide|].
      split; [by apply (proj2 (kind_cuisine _ (safe_name_no_colon _ (Harea _ Hv))))|].
      by eapply mt_entity_type.
  - exists "ingredient"%string, "Ingredient"%string.
    split; [closed_decide|].
    split; [apply (proj2 (kind_ingredient _
              (ingredient_local_no_colon meal_id i Hcolon)))|].
    by eapply mt_slot_type.
Qed.

(** X18: the drawing sorts the nodes by the class the graph gives them.
    For records whose identifier has no colon, a node is among the meal,
    category, cuisine or ingredient nodes of the drawing exactly when the
    graph types it as [Meal], [Category], [Cuisine] or [Ingredient]: the
    substring tests of the loop and the [rdf:type] triples of the mapper
    agree, whatever the order in which the triples are visited. *)
Theorem node_kinds (meals : list dict) (ts : list triple) :
  Forall (λ meal, is_Some (meal !! str "idMeal")) meals →
  Forall plain_record meals →
  (∀ t, t ∈ ts ↔ t ∈ (add_meals (G:=Graph) meals ∅).2) →
  ∀ kind class, (kind, class) ∈ kind_table →
  ∀ x, x ∈ nodes_of kind (viz_loop ts)
       ↔ (URIRef x, RDF_type, term RECIPE (str class))
         ∈ (add_meals (G:=Graph) meals ∅).2.
Proof.
  intros Hids Hplain Hts kind class Hkc x.
  rewrite Forall_forall in Hplain. rewrite viz_loop_nodes. split.
  - intros ([[s p] o] & Ht & Hsrc). apply Hts in Ht.
    apply store_triple_inv in Ht
      as (meal & meal_id & Hm & Hid & Hmt).
    pose proof (Hplain _ (processed_sub _ _ Hm)) as Hpl.
    unfold type_source, subject, predicate, object in Hsrc.
    cbn [fst snd] in Hsrc.
    destruct Hsrc as [[Hk ->]|(Hp & Ho & Hk & ->)].
    + destruct (subject_typed _ _ _ _ _ Hpl Hid Hmt)
        as (k & c & Hkc' & Hk' & [u ->] & Hty & _).
      rewrite Hk in Hk'. injection Hk' as <-.
      destruct (kind_table_inj _ _ _ _ Hkc Hkc' (or_introl eq_refl))
        as [_ ->].
      by apply (mapper_triple_in_store _ _ _ _ Hm Hid).
    + destruct (object_typed _ _ _ _ _ Hpl Hid Hmt Hp Ho)
        as (k & c & Hkc' & Hk' & Hty).
      destruct Ho as [u ->].
      rewrite Hk in Hk'. injection Hk' as <-.
      destruct (kind_table_inj _ _ _ _ Hkc Hkc' (or_introl eq_refl))
        as [_ ->].
      by apply (mapper_triple_in_store _ _ _ _ Hm Hid).
  - intros Ht. exists (URIRef x, RDF_type, term RECIPE (str class)).
    split; [by apply Hts|].
    apply store_triple_inv in Ht
      as (meal & meal_id & Hm & Hid & Hmt).
    destruct (subject_typed _ _ _ _ _ (Hplain _ (processed_sub _ _ Hm)) Hid Hmt)
      as (k & c & Hkc' & Hk' & _ & _ & Hc).
    destruct (kind_table_inj _ _ _ _ Hkc Hkc' (or_intror (Hc eq_refl)))
      as [-> _].
    left. split; [exact Hk' | reflexivity].
Qed.

Lemma node_kinds_witness :
  let ts := elements (add_meals (G:=Graph) [beef_stew] ∅).2 in
  let x := str "http://example.org/category/Beef" in
  x ∈ nodes_of "category" (viz_loop ts)
  ↔ (URIRef x, RDF_type, term RECIPE (str "Category"))
    ∈ (add_meals (G:=Graph) [beef_stew] ∅).2.
Proof.
  intros ts x.
  apply (node_kinds [beef_stew] ts).
  - repeat constructor. eexists. reflexivity.
  - repeat constructor.
    + intros id H. vm_compute in H. injection H as <-.
      apply (bool_decide_unpack _). vm_compute. exact I.
    + intros v H. vm_compute in H. injection H as <-.
      apply (bool_decide_unpack _). vm_compute. exact I.
    + intros v H. vm_compute in H. injection H as <-.
      apply (bool_decide_unpack _). vm_compute. exact I.
  - intros t. apply elem_of_elements.
  - apply elem_of_cons. right. apply elem_of_cons. left. reflexivity.
Defined.

(** X19: the labels the loop collects are names, cut to 20 characters.
    For a graph built from records with identifiers, an entry of
    [node_labels] belongs to a meal node and holds the start of the
    record's [strMeal], or belongs to an ingredient node and holds the
    start of the stripped ingredient name; instructions, thumbnails, links
    and measures never become labels. *)
Theorem labels_are_names (meals : list dict) (ts : list triple)
    (x l : pystr) :
  Forall (λ meal, is_Some (meal !! str "idMeal")) meals →
  (∀ t, t ∈ ts ↔ t ∈ (add_meals (G:=Graph) meals ∅).2) →
  node_labels (viz_loop ts) !! x = Some l →
  ∃ meal meal_id,
    meal ∈ meals ∧ meal !! str "idMeal" = Some meal_id
    ∧ ((x = node_str (term_of MEAL meal_id)
        ∧ ∃ name, get meal (str "strMeal") = PStr name
                  ∧ truth name = true ∧ l = take 20 name)
       ∨ (∃ i name,
            (1 ≤ i ≤ 20)%nat
            ∧ x = node_str (ingredient_uri meal_id i)
            ∧ get meal (str "strIngredient" ++ str_of_nat i) = PStr name
            ∧ truth (strip name) = true
            ∧ l = take 20 (strip name))).
Proof.
  intros Hids Hts Hl.
  apply viz_loop_labels in Hl as ([[s p] o] & Ht & Hsrc).
  destruct Hsrc as (Hp & (lit & Ho & ->) & Hpred & ->).
  cbn [subject predicate object fst snd] in *.
  apply Hts, store_triple_inv in Ht
    as (meal & meal_id & Hm%processed_sub & Hid & Ht).
  exists meal, meal_id. split; [done|]. split; [done|].
  remember (s, p, o) as t eqn:Et.
  destruct Ht as
    [ | key property v Hf Hv Ht
      | key ns class relation v Hk Hv Ht Hr Hc
      | key ns class relation v Hk Hv Ht Hr Hc
      | key ns class relation v Hk Hv Ht Hr Hc
      | i name Hi Hn Hs Hst | i name Hi Hn Hs Hst
      | i name measure Hi Hn Hs Hm' Hms Hst | i name Hi Hn Hs Hst ];
    apply triple_inj in Et as (Es & Ep & Eo); subst s p o;
    try discriminate Ho;
    try (destruct Hp; apply elem_of_cons; by auto);
    try (destruct Hp; apply elem_of_cons; right; by left).
  - injection Ho as <-.
    destruct_scalar Hf;
      try (exfalso; revert Hpred; apply (bool_decide_unpack _);
           vm_compute; exact I).
    left. split; [done|]. by exists v.
  - injection Ho as <-. right. by exists i, name.
  - exfalso. revert Hpred. apply (bool_decide_unpack _).
    vm_compute. exact I.
Qed.

Lemma labels_are_names_witness :
  let x := str "http://example.org/meal/52874" in
  let l := str "Beef Stew" in
  ∃ meal meal_id,
    meal ∈ [beef_stew] ∧ meal !! str "idMeal" = Some meal_id
    ∧ ((x = node_str (term_of MEAL meal_id)
        ∧ ∃ name, get meal (str "strMeal") = PStr name
                  ∧ truth name = true ∧ l = take 20 name)
       ∨ (∃ i name,
            (1 ≤ i ≤ 20)%nat
            ∧ x = node_str (ingredient_uri meal_id i)
            ∧ get meal (str "strIngredient" ++ str_of_nat i) = PStr name
            ∧ truth (strip name) = true
            ∧ l = take 20 (strip name))).
Proof.
  intros x l.
  apply (labels_are_names [beef_stew] (emitted beef_stew) x l).
  - repeat constructor. eexists. reflexivity.
  - intros t. rewrite elem_of_add_meals.
    change (processed [beef_stew]) with [beef_stew].
    split; [intros Ht; exists beef_stew; split; [left|done]|].
    by intros (meal & ->%list_elem_of_singleton & Ht).
  - vm_compute. reflexivity.
Defined.
